(** * Raga chord engine: a shallow embedding and its properties

    The functions below follow the Express server [index.js] (in its
    version that also serves [/api/raga-search]) and its serverless port
    [netlify/functions/api.js].  The matching, filtering, naming, search
    and aggregate functions are the same in both; where the two
    deployments differ (the order of the checks of the custom-matches
    route) each has its own definition, in [Express] and [Netlify].

    The numbers of the matcher are small integers and are modelled by
    [Z]; [%] is the truncating remainder [Z.rem]; reading an array outside
    its bounds yields [undefined], modelled by [None].  The annotator adds
    a tonic that comes unchecked from [parseInt], so there the numbers are
    doubles: [JsNumber], with the rounding of [+] written out. *)

From Stdlib Require Import ZArith List Bool Lia Ascii String.
From stdpp Require Import base list strings gmap pretty.

Local Open Scope string_scope.
Local Open Scope list_scope.
Local Open Scope Z_scope.

(** ** JavaScript primitives used by the engine *)

(** [a % b] on integers: the sign follows the dividend. *)
Definition js_rem (a b : Z) : Z := Z.rem a b.

(** [arr[n]] for a numeric index [n]. *)
Definition js_index {A : Type} (arr : list A) (n : Z) : option A :=
  if decide (0 ≤ n) then arr !! Z.to_nat n else None.

(** Truthiness of a pattern cell: [undefined] and [0] are falsy. *)
Definition truthy (v : option Z) : bool :=
  match v with
  | Some x => negb (x =? 0)
  | None => false
  end.

(** [Math.max(x, ...rest)]. *)
Fixpoint Math_max (x : Z) (rest : list Z) : Z :=
  match rest with
  | [] => x
  | y :: rest' => Math_max (Z.max x y) rest'
  end.

(** ** Constant tables *)

Definition swarNames : list string :=
  ["Sa"; "Re♭"; "Re"; "Ga♭"; "Ga"; "Ma"; "Ma♯"; "Pa"; "Dha♭"; "Dha"; "Ni♭"; "Ni"].

Definition westernNotesFlat : list string :=
  ["C"; "D♭"; "D"; "E♭"; "E"; "F"; "G♭"; "G"; "A♭"; "A"; "B♭"; "B"].

Record ChordType := mkChordType {
  ct_id : string;
  ct_name : string;
  ct_intervals : list Z;
  ct_color : string
}.

Definition chordTypes : list ChordType :=
  [ mkChordType "major" "Major" [0; 4; 7] "#3b82f6";
    mkChordType "minor" "Minor" [0; 3; 7] "#8b5cf6";
    mkChordType "diminished" "Diminished" [0; 3; 6] "#ef4444";
    mkChordType "sus4" "Sus4" [0; 5; 7] "#10b981";
    mkChordType "augmented" "Augmented" [0; 4; 8] "#f97316";
    mkChordType "major7" "Major 7" [0; 4; 7; 11] "#22c55e";
    mkChordType "minor7" "Minor 7" [0; 3; 7; 10] "#06b6d4";
    mkChordType "dom7" "Dominant 7" [0; 4; 7; 10] "#eab308";
    mkChordType "sus2" "Sus2" [0; 2; 7] "#14b8a6";
    mkChordType "dim7" "Diminished 7" [0; 3; 6; 9] "#db2777";
    mkChordType "maj6" "Major 6" [0; 4; 7; 9] "#a3e635";
    mkChordType "min6" "Minor 6" [0; 3; 7; 9] "#f43f5e";
    mkChordType "m7b5" "Half-diminished (m7♭5)" [0; 3; 6; 10] "#0ea5e9" ].

(** ** Ragas and matched chords *)

Record Raga := mkRaga {
  name : string;
  notePattern : list Z;
  aarohPattern : list Z;
  avrohPattern : list Z
}.

(** A chord object as pushed by [availableChordsForPattern]; the field
    [westernName] is absent ([None]) until [attachWesternNames] adds it. *)
Record Chord := mkChord {
  root : Z;
  rootName : option string;
  notes : list Z;
  type : ChordType;
  isExtended : bool;
  westernName : option string
}.

(** ** The chord matcher *)

Definition getExtendedIntervals (baseIntervals : list Z) (extend : bool) : list Z :=
  if negb extend || (length baseIntervals <? 3)%nat then baseIntervals
  else
    match baseIntervals with
    | [] => baseIntervals
    | x :: rest =>
        let highest := Math_max x rest in
        let add := js_rem (highest + 3) 12 in
        baseIntervals ++ [add]
    end.

(** The roots visited by [for (let root = 0; root < 12; root++)]. *)
Definition roots12 : list Z := [0; 1; 2; 3; 4; 5; 6; 7; 8; 9; 10; 11].

(** One iteration of the inner loop: [result] is the array being filled. *)
Definition rootStep (pattern : list Z) (extend : bool) (ct : ChordType)
    (result : list Chord) (root : Z) : list Chord :=
  if negb (truthy (js_index pattern root)) then result
  else
    let intervals := getExtendedIntervals (ct_intervals ct) extend in
    let notes := map (λ x, js_rem (root + x) 12) intervals in
    let ok := forallb (λ n, truthy (js_index pattern n)) notes in
    if ok then
      result ++ [ mkChord root (js_index swarNames root) notes ct
                    (extend && (length (ct_intervals ct) <? length intervals)%nat)
                    None ]
    else result.

(** [chordId === 'all' || !chordId]: the empty string is the falsy string. *)
Definition selectTypes (chordId : string) : list ChordType :=
  if String.eqb chordId "all" || String.eqb chordId ""
  then chordTypes
  else List.filter (λ c, String.eqb (ct_id c) chordId) chordTypes.

Definition availableChordsForPattern (pattern : list Z) (chordId : string)
    (extend : bool) : list Chord :=
  fold_left (λ result ct, fold_left (rootStep pattern extend ct) roots12 result)
    (selectTypes chordId) [].

(** ** Filtering by note and western names *)

(** [selectedNote] is [None] for [undefined]/[null]; [mode] is [None] when
    the argument is missing. *)
Definition filterChordsByNote (chords : list Chord) (selectedNote : option Z)
    (mode : option string) : list Chord :=
  match selectedNote with
  | None => chords
  | Some sel =>
      if bool_decide (mode = Some "any")
      then List.filter (λ c, existsb (Z.eqb sel) (notes c)) chords
      else List.filter (λ c, root c =? sel) chords
  end.

(** Interpolation of a possibly undefined string in a template literal. *)
Definition js_str (v : option string) : string := default "undefined" v.

(** [Array.prototype.join]: an undefined element prints as the empty string. *)
Fixpoint js_join (sep : string) (l : list (option string)) : string :=
  match l with
  | [] => ""
  | x :: rest =>
      match rest with
      | [] => default "" x
      | _ :: _ => default "" x +:+ sep +:+ js_join sep rest
      end
  end.

(** The [if]/[else if] chain computing [quality]. *)
Definition quality (ct : ChordType) : string :=
  let id := ct_id ct in
  if String.eqb id "major" then ""
  else if String.eqb id "minor" then "m"
  else if String.eqb id "diminished" then "dim"
  else if String.eqb id "augmented" then "aug"
  else if String.eqb id "sus4" then "sus4"
  else if String.eqb id "sus2" then "sus2"
  else if String.eqb id "major7" then "maj7"
  else if String.eqb id "minor7" then "m7"
  else if String.eqb id "dom7" then "7"
  else if String.eqb id "dim7" then "dim7"
  else if String.eqb id "m7b5" then "m7♭5"
  else if String.eqb id "maj6" then "6"
  else if String.eqb id "min6" then "m6"
  else ct_name ct.

(** [Number.MAX_SAFE_INTEGER]: up to it every integer is a double. *)
Definition MAX_SAFE_INTEGER : Z := 2 ^ 53 - 1.

(** The doubles met by the annotator: integer-valued ones (negative zero
    is taken as 0: both read cell 0 of an array and both are neutral for
    [+]), the two infinities ([negative] tells which) and [NaN]. *)
Inductive JsNumber :=
  | NInt (z : Z)
  | NInf (negative : bool)
  | NNaN.

(** The double nearest to the integer [z], ties to the even significand
    of 53 bits; from [2 ^ 1024] on the result is an infinity. *)
Definition roundDouble (z : Z) : JsNumber :=
  let a := Z.abs z in
  if a <=? MAX_SAFE_INTEGER then NInt z
  else
    let e := Z.log2 a - 52 in
    let q := Z.shiftr a e in
    let r := a - Z.shiftl q e in
    let half := Z.shiftl 1 (e - 1) in
    let q' := if r <? half then q
              else if half <? r then q + 1
              else if Z.even q then q else q + 1 in
    let m := Z.shiftl q' e in
    if 2 ^ 1024 <=? m then NInf (z <? 0) else NInt (Z.sgn z * m).

(** [a + b] on doubles. *)
Definition js_add (a b : JsNumber) : JsNumber :=
  match a, b with
  | NNaN, _ | _, NNaN => NNaN
  | NInf s, NInf s' => if Bool.eqb s s' then NInf s else NNaN
  | NInf s, NInt _ | NInt _, NInf s => NInf s
  | NInt x, NInt y => roundDouble (x + y)
  end.

(** [a % b] for a double [a] and a small integer [b]: exact on a finite
    [a], [NaN] otherwise. *)
Definition js_rem_number (a : JsNumber) (b : Z) : JsNumber :=
  match a with
  | NInt x => NInt (js_rem x b)
  | NInf _ | NNaN => NNaN
  end.

(** [arr[n]] for a double [n]. *)
Definition js_index_number {A : Type} (arr : list A) (n : JsNumber) : option A :=
  match n with
  | NInt z => js_index arr z
  | NInf _ | NNaN => None
  end.

Definition attachWesternNames (chords : list Chord) (tonicIndex : option JsNumber)
    : list Chord :=
  match tonicIndex with
  | None => chords
  | Some tonicIndex =>
      map (λ chord,
             let rootWesternIndex :=
               js_rem_number (js_add (NInt (root chord)) tonicIndex) 12 in
             let rootNote := js_index_number westernNotesFlat rootWesternIndex in
             let westernChordNotes :=
               map (λ n, js_index_number westernNotesFlat
                           (js_rem_number (js_add (NInt n) tonicIndex) 12))
                   (notes chord) in
             mkChord (root chord) (rootName chord) (notes chord) (type chord)
               (isExtended chord)
               (Some (js_str rootNote +:+ quality (type chord) +:+ ": "
                      +:+ js_join " - " westernChordNotes)))
          chords
  end.

(** ** Custom interval matches *)

(** The JSON values met as elements of [intervalsAbs]: integers, [null],
    booleans, and [JNaN] for a value that [%] coerces to [NaN] (a string
    that does not spell a number, an object).  Fractional numbers are left
    out. *)
Inductive JsElem :=
  | JNum (z : Z)
  | JNull
  | JBool (b : bool)
  | JNaN.

(** Numeric coercion of an operand of [%]; [None] is [NaN]. *)
Definition toNumber (v : JsElem) : option Z :=
  match v with
  | JNum z => Some z
  | JNull => Some 0
  | JBool b => Some (if b then 1 else 0)
  | JNaN => None
  end.

(** The [intervalsAbs] member of the request body: missing, a value for
    which [Array.isArray] is false, or an array. *)
Inductive JsField :=
  | JAbsent
  | JNotArray
  | JArray (elems : list JsElem).

Record CustomMatch := mkCustomMatch {
  cm_root : Z;
  cm_rootName : option string;
  cm_notes : list (option Z)
}.

Record CustomMatches := mkCustomMatches {
  aaroh : list CustomMatch;
  avroh : list CustomMatch;
  all : list CustomMatch
}.

(** What a route sends back: a JSON body, or a status with an error text. *)
Inductive Response (A : Type) :=
  | Ok (body : A)
  | Error (status : Z) (error : string).
Arguments Ok {A} body.
Arguments Error {A} status error.

(** [intervalsAbs.map(v => ((v % 12) + 12) % 12)]; arithmetic on [NaN]
    gives [NaN]. *)
Definition normalizeIntervals (intervalsAbs : list JsElem) : list (option Z) :=
  map (λ v, (λ x, js_rem (js_rem x 12 + 12) 12) <$> toNumber v) intervalsAbs.

(** [pattern[i]] for a number [i]; the index [NaN] finds nothing. *)
Definition js_index_num (pattern : list Z) (i : option Z) : option Z :=
  i ≫= js_index pattern.

Definition findMatchesStep (pcs : list (option Z)) (pattern : list Z)
    (matches : list CustomMatch) (root : Z) : list CustomMatch :=
  let notes := map (λ iv, (λ x, js_rem (root + x) 12) <$> iv) pcs in
  if forallb (λ i, truthy (js_index_num pattern i)) notes
  then matches ++ [mkCustomMatch root (js_index swarNames root) notes]
  else matches.

Definition findMatches (pcs : list (option Z)) (pattern : list Z)
    : list CustomMatch :=
  fold_left (findMatchesStep pcs pattern) roots12 [].

Definition customMatchesBody (pcs : list (option Z)) (r : Raga) : CustomMatches :=
  mkCustomMatches (findMatches pcs (aarohPattern r))
                  (findMatches pcs (avrohPattern r))
                  (findMatches pcs (notePattern r)).

Module Express.

(** [app.post('/api/ragas/:name/custom-matches', ...)]; [r] is the result
    of [ragas.find] for the requested name. *)
Definition customMatches (intervalsAbs : JsField) (r : option Raga)
    : Response CustomMatches :=
  match intervalsAbs with
  | JAbsent | JNotArray => Error 400 "intervalsAbs required"
  | JArray elems =>
      if (length elems =? 0)%nat then Error 400 "intervalsAbs required"
      else
        let pcs := normalizeIntervals elems in
        match r with
        | None => Error 404 "Not found"
        | Some r => Ok (customMatchesBody pcs r)
        end
  end.

End Express.

Module Netlify.

(** The [/custom-matches] branch of [handler]: the raga is looked up
    before the branch is reached, then the method is checked. *)
Definition customMatches (httpMethod : string) (intervalsAbs : JsField)
    (r : option Raga) : Response CustomMatches :=
  match r with
  | None => Error 404 "Not found"
  | Some raga =>
      if negb (String.eqb httpMethod "POST") then Error 405 "Method not allowed"
      else
        match intervalsAbs with
        | JAbsent | JNotArray => Error 400 "intervalsAbs required"
        | JArray elems =>
            if (length elems =? 0)%nat then Error 400 "intervalsAbs required"
            else Ok (customMatchesBody (normalizeIntervals elems) raga)
        end
  end.

End Netlify.

(** ** Aggregated counts *)

Inductive PatternKey := NotePatternKey | AarohPatternKey | AvrohPatternKey.

(** [r[p]] *)
Definition ragaPattern (r : Raga) (p : PatternKey) : list Z :=
  match p with
  | NotePatternKey => notePattern r
  | AarohPatternKey => aarohPattern r
  | AvrohPatternKey => avrohPattern r
  end.

Record Aggregates := mkAggregates { basic : nat; extended : nat }.

Definition aggregatesStep (r : Raga) (extendBool : bool) (p : PatternKey)
    (acc : Aggregates) (ct : ChordType) : Aggregates :=
  let arr := availableChordsForPattern (ragaPattern r p) (ct_id ct) extendBool in
  mkAggregates
    (basic acc + length (List.filter (λ c, negb (isExtended c)) arr))
    (extended acc + length (List.filter (λ c, isExtended c) arr)).

Definition aggregates (r : Raga) (separateBool extendBool : bool) : Aggregates :=
  let parts := if separateBool then [AarohPatternKey; AvrohPatternKey]
               else [NotePatternKey] in
  fold_left (λ acc p, fold_left (aggregatesStep r extendBool p) chordTypes acc)
    parts (mkAggregates 0 0).

(** ** Raga search *)

Definition swaraGroups : list (list Z) :=
  [[0]; [1; 2]; [3; 4]; [5; 6]; [7]; [8; 9]; [10; 11]].

Definition countSwaras (pattern : list Z) : Z :=
  fold_left
    (λ count group,
       count + (if existsb (λ idx, bool_decide (js_index pattern idx = Some 1)) group
                then 1 else 0))
    swaraGroups 0.

Definition getJati (count : Z) : string :=
  if count =? 5 then "Audav (Pentatonic)"
  else if count =? 6 then "Shadav (Hexatonic)"
  else if count =? 7 then "Sampoorna (Heptatonic)"
  else pretty count +:+ " notes".

(** [{ ...r, noteCount, aarohJati, avrohJati }] *)
Record EnrichedRaga := mkEnriched {
  raga : Raga;
  noteCount : Z;
  aarohJati : string;
  avrohJati : string
}.

Definition enrich (r : Raga) : EnrichedRaga :=
  let noteCount := countSwaras (notePattern r) in
  let aarohCount := countSwaras (aarohPattern r) in
  let avrohCount := countSwaras (avrohPattern r) in
  mkEnriched r noteCount (getJati aarohCount) (getJati avrohCount).

(** The string primitives [toLowerCase] and [trim] on ASCII text: the
    letters A to Z are folded and the ASCII blanks (space, tab, line feed,
    vertical tab, form feed, carriage return) are stripped.  On other text
    the runtime folds and strips more than this. *)
Definition lowerAscii (c : ascii) : ascii :=
  let n := nat_of_ascii c in
  if ((65 <=? n) && (n <=? 90))%nat then ascii_of_nat (n + 32) else c.

Fixpoint toLowerCase (s : string) : string :=
  match s with
  | EmptyString => EmptyString
  | String c rest => String (lowerAscii c) (toLowerCase rest)
  end.

Definition isSpace (c : ascii) : bool :=
  let n := nat_of_ascii c in
  ((n =? 32) || ((9 <=? n) && (n <=? 13)))%nat.

Fixpoint trimStart (s : string) : string :=
  match s with
  | EmptyString => EmptyString
  | String c rest => if isSpace c then trimStart rest else s
  end.

Definition trim (s : string) : string :=
  String.rev (trimStart (String.rev (trimStart s))).

Fixpoint includes (s q : string) : bool :=
  String.prefix q s ||
  match s with
  | EmptyString => false
  | String _ rest => includes rest q
  end.

(** [s.split(sep)] for a one-character separator; [cur] is the token
    being read, in reverse. *)
Fixpoint splitOn (sep : ascii) (s : string) (cur : string) : list string :=
  match s with
  | EmptyString => [String.rev cur]
  | String c rest =>
      if Ascii.eqb c sep then String.rev cur :: splitOn sep rest EmptyString
      else splitOn sep rest (String c cur)
  end.

(** The letter table [map] of [toPattern]. *)
Definition swaraIndex (ch : ascii) : option nat :=
  match ch with
  | "S"%char => Some 0%nat
  | "R"%char => Some 2%nat
  | "r"%char => Some 1%nat
  | "G"%char => Some 4%nat
  | "g"%char => Some 3%nat
  | "M"%char => Some 6%nat
  | "m"%char => Some 5%nat
  | "P"%char => Some 7%nat
  | "D"%char => Some 9%nat
  | "d"%char => Some 8%nat
  | "N"%char => Some 11%nat
  | "n"%char => Some 10%nat
  | _ => None
  end.

(** [toPattern]: the array [present] starts as twelve zeros and receives a
    1 at the index of every mapped letter of every token. *)
Definition toPattern (s : string) : list Z :=
  let tokens := splitOn "-" s EmptyString in
  fold_left
    (λ present tok,
       fold_left
         (λ present ch,
            match swaraIndex ch with
            | Some i => <[i := 1]> present
            | None => present
            end)
         (list_ascii_of_string (trim tok)) present)
    tokens (replicate 12 0).

(** One data row of [parseAarohAvrohCSV], already split at the commas; a
    row with an empty field is skipped. *)
Definition parseRow (name aroha avroh : string) : option Raga :=
  if String.eqb name "" || String.eqb aroha "" || String.eqb avroh "" then None
  else
    let aarohPattern := toPattern aroha in
    let avrohPattern := toPattern avroh in
    let combined :=
      imap (λ idx v, if negb (v =? 0) || truthy (avrohPattern !! idx) then 1 else 0)
           aarohPattern in
    Some (mkRaga (trim name) combined aarohPattern avrohPattern).

(** The last two steps of [toSet]/[readSet]: keep the integers of 0..11
    and build the [Set].  The argument lists the integers [parseInt] found;
    [NaN] entries, which [Number.isInteger] drops, are not listed. *)
Definition toSet (ns : list Z) : gset Z :=
  list_to_set (List.filter (λ n, (0 <=? n) && (n <=? 11)) ns).

(** [scaleType] once compared with ['any'] and passed to [parseInt]. *)
Inductive ScaleType :=
  | ScaleAny
  | ScaleTarget (target : Z)
  | ScaleNaN.

(** [pattern.every((val, idx) => f(val, idx))] *)
Definition everyIdx (f : Z → Z → bool) (pattern : list Z) : bool :=
  forallb id (imap (λ idx val, f val (Z.of_nat idx)) pattern).

Definition exactMatch (pattern : list Z) (includeSet : gset Z) : bool :=
  let withSa := includeSet ∪ {[0]} in
  everyIdx (λ val idx, val =? (if bool_decide (idx ∈ withSa) then 1 else 0)) pattern.

(** The include step for one pattern accessor and one selected set. *)
Definition includeStage (searchMode : string) (pat : Raga → list Z)
    (selSet : gset Z) (filtered : list EnrichedRaga) : list EnrichedRaga :=
  if bool_decide (0 < size selSet)%nat then
    let withSa := selSet ∪ {[0]} in
    let arr := elements withSa in
    if String.eqb searchMode "exact"
    then List.filter (λ r, exactMatch (pat (raga r)) selSet) filtered
    else List.filter
           (λ r, forallb (λ i, bool_decide (js_index (pat (raga r)) i = Some 1)) arr)
           filtered
  else filtered.

(** The exclude step for one pattern accessor and one excluded set. *)
Definition excludeStage (pat : Raga → list Z) (excSet : gset Z)
    (filtered : list EnrichedRaga) : list EnrichedRaga :=
  if bool_decide (0 < size excSet)%nat then
    let arr := elements excSet in
    List.filter
      (λ r, forallb (λ i, bool_decide (js_index (pat (raga r)) i = Some 0)) arr)
      filtered
  else filtered.

Record SearchQuery := mkSearchQuery {
  search : string;
  scaleType : ScaleType;
  searchMode : string;
  separate : bool;
  selectedNotes : list Z;
  excludedNotes : list Z;
  selectedAarohNotes : list Z;
  excludedAarohNotes : list Z;
  selectedAvrohNotes : list Z;
  excludedAvrohNotes : list Z
}.

Definition nameStage (search : string) (filtered : list EnrichedRaga)
    : list EnrichedRaga :=
  if negb (String.eqb (trim search) "") then
    let q := toLowerCase (trim search) in
    List.filter (λ r, includes (toLowerCase (name (raga r))) q) filtered
  else filtered.

Definition scaleStage (scaleType : ScaleType) (filtered : list EnrichedRaga)
    : list EnrichedRaga :=
  match scaleType with
  | ScaleAny => filtered
  | ScaleTarget target => List.filter (λ r, noteCount r =? target) filtered
  | ScaleNaN => filtered
  end.

Definition pitchStage (q : SearchQuery) (filtered : list EnrichedRaga)
    : list EnrichedRaga :=
  let selectedSet := toSet (selectedNotes q) in
  let excludedSet := toSet (excludedNotes q) in
  let selASet := toSet (selectedAarohNotes q) in
  let excASet := toSet (excludedAarohNotes q) in
  let selVSet := toSet (selectedAvrohNotes q) in
  let excVSet := toSet (excludedAvrohNotes q) in
  if separate q then
    let filtered := includeStage (searchMode q) aarohPattern selASet filtered in
    let filtered := excludeStage aarohPattern excASet filtered in
    let filtered := includeStage (searchMode q) avrohPattern selVSet filtered in
    excludeStage avrohPattern excVSet filtered
  else
    let filtered := includeStage (searchMode q) notePattern selectedSet filtered in
    excludeStage notePattern excludedSet filtered.

(** The [/api/raga-search] route over the cached raga list. *)
Definition ragaSearch (ragas : list Raga) (q : SearchQuery) : list EnrichedRaga :=
  let enriched := map enrich ragas in
  let filtered := nameStage (search q) enriched in
  let filtered := scaleStage (scaleType q) filtered in
  pitchStage q filtered.

(** The raga read from the row [Demo,S-G,G-S]: its patterns are {0, 4}. *)
Definition demoRaga : Raga :=
  mkRaga "Demo" [1; 0; 0; 0; 1; 0; 0; 0; 0; 0; 0; 0]
                [1; 0; 0; 0; 1; 0; 0; 0; 0; 0; 0; 0]
                [1; 0; 0; 0; 1; 0; 0; 0; 0; 0; 0; 0].

(** ** Views used in the statements *)

(** The chord object built for template [ct] at [root]. *)
Definition chordAt (extend : bool) (ct : ChordType) (root : Z) : Chord :=
  let intervals := getExtendedIntervals (ct_intervals ct) extend in
  mkChord root (js_index swarNames root)
    (map (λ x, js_rem (root + x) 12) intervals) ct
    (extend && (length (ct_intervals ct) <? length intervals)%nat) None.

(** The two tests of the loop body: root present, all notes present. *)
Definition accepts (pattern : list Z) (extend : bool) (ct : ChordType)
    (root : Z) : bool :=
  truthy (js_index pattern root) &&
  forallb (λ n, truthy (js_index pattern n))
    (map (λ x, js_rem (root + x) 12) (getExtendedIntervals (ct_intervals ct) extend)).

Definition matchesOf (pattern : list Z) (extend : bool) (ct : ChordType)
    : list Chord :=
  map (chordAt extend ct) (List.filter (accepts pattern extend ct) roots12).

(** A pitch class is present in a pattern when its cell is truthy. *)
Definition present (pattern : list Z) (n : Z) : Prop :=
  truthy (js_index pattern n) = true.

Definition pentatonic : list Z := [1; 0; 1; 0; 1; 0; 0; 1; 0; 1; 0; 0].

Definition majorType : ChordType := mkChordType "major" "Major" [0; 4; 7] "#3b82f6".

Definition dim7Pattern : list Z := [1; 0; 0; 1; 0; 0; 1; 0; 0; 1; 0; 0].

Definition dim7Type : ChordType :=
  mkChordType "dim7" "Diminished 7" [0; 3; 6; 9] "#db2777".

(** Templates whose highest offset is 9: the offset added by the extension
    rule is [(9 + 3) % 12 = 0], the root again. *)
Definition wrapsToRoot (ct : ChordType) : bool :=
  existsb (String.eqb (ct_id ct)) ["dim7"; "maj6"; "min6"].

#[global] Instance ChordType_eq_dec : EqDecision ChordType.
Proof. solve_decision. Defined.

(** The check behind the distinctness of note sequences, for one chord. *)
Definition distinctNotesCheck (extend : bool) (ct : ChordType) (r : Z) : bool :=
  let base := map (λ i, (r + i) `mod` 12) (ct_intervals ct) in
  if extend && wrapsToRoot ct
  then bool_decide (notes (chordAt extend ct r) = base ++ [r]) &&
       bool_decide (NoDup base)
  else bool_decide (NoDup (notes (chordAt extend ct r))).

(** ** Statement-side definitions for the annotator and the custom route *)

(** The quality suffixes as a finite map from template id to suffix. *)
Definition qualityTable : gmap string string :=
  list_to_map
    [ ("major", ""); ("minor", "m"); ("diminished", "dim"); ("augmented", "aug");
      ("sus4", "sus4"); ("sus2", "sus2"); ("major7", "maj7"); ("minor7", "m7");
      ("dom7", "7"); ("dim7", "dim7"); ("m7b5", "m7♭5"); ("maj6", "6");
      ("min6", "m6") ].

Definition qualitySuffix (ct : ChordType) : string :=
  default (ct_name ct) (qualityTable !! ct_id ct).

(** Flat-spelling name of a pitch class of 0..11. *)
Definition westernNote (pc : Z) : string :=
  nth (Z.to_nat pc) westernNotesFlat "".

(** The annotation as the specification words it. *)
Definition westernNameOf (tonic : Z) (c : Chord) : string :=
  westernNote ((root c + tonic) `mod` 12) +:+ qualitySuffix (type c) +:+ ": "
  +:+ String.concat " - " (map (λ n, westernNote ((n + tonic) `mod` 12)) (notes c)).

Definition withWesternName (c : Chord) (s : string) : Chord :=
  mkChord (root c) (rootName c) (notes c) (type c) (isExtended c) (Some s).

Definition isIntegerElem (v : JsElem) : bool :=
  match v with
  | JNum _ => true
  | JNull | JBool _ | JNaN => false
  end.

(** The inputs the specification calls invalid: the list is absent, empty,
    or not a list of integers. *)
Definition specInvalidInput (f : JsField) : Prop :=
  match f with
  | JAbsent | JNotArray => True
  | JArray elems => elems = [] ∨ forallb isIntegerElem elems = false
  end.

(** The inputs the routes reject. *)
Definition rejectedInput (f : JsField) : Prop :=
  f = JAbsent ∨ f = JNotArray ∨ f = JArray [].

(** A template that is not in the catalog, to exercise the fallback. *)
Definition powerType : ChordType := mkChordType "power" "Power" [0; 7] "#000000".

Definition minorType : ChordType := mkChordType "minor" "Minor" [0; 3; 7] "#8b5cf6".

Definition triadPattern : list Z := [1; 0; 0; 0; 1; 0; 0; 1; 0; 0; 0; 0].

Definition triadRaga : Raga := mkRaga "Triad" triadPattern triadPattern triadPattern.

Definition customAccepts (pcs : list (option Z)) (pattern : list Z) (root : Z)
    : bool :=
  forallb (λ i, truthy (js_index_num pattern i))
    (map (λ iv, (λ x, js_rem (root + x) 12) <$> iv) pcs).

Definition customAt (pcs : list (option Z)) (root : Z) : CustomMatch :=
  mkCustomMatch root (js_index swarNames root)
    (map (λ iv, (λ x, js_rem (root + x) 12) <$> iv) pcs).

(** ** Statement-side definitions for the search *)

(** The pattern, read as a set: a 1 at each pitch class of [S] and a 0 at
    each other pitch class of 0..11. *)
Definition patternIsSet (pattern : list Z) (S : gset Z) : Prop :=
  Forall (λ idx, js_index pattern idx = Some (if decide (idx ∈ S) then 1 else 0))
         roots12.

(** Every excluded pitch class has a 0 in the pattern. *)
Definition excludedAbsent (pattern : list Z) (E : gset Z) : Prop :=
  set_Forall (λ i, js_index pattern i = Some 0) E.

(** What exact mode keeps, for one pattern and its include/exclude lists. *)
Definition exactKeeps (pat : Raga → list Z) (sel exc : list Z)
    (r : EnrichedRaga) : Prop :=
  (toSet sel ≠ ∅ → patternIsSet (pat (raga r)) (toSet sel ∪ {[0]})) ∧
  excludedAbsent (pat (raga r)) (toSet exc).

#[global] Instance patternIsSet_dec pattern S : Decision (patternIsSet pattern S).
Proof. unfold patternIsSet. apply _. Defined.

#[global] Instance excludedAbsent_dec pattern E : Decision (excludedAbsent pattern E).
Proof. unfold excludedAbsent. apply _. Defined.

#[global] Instance exactKeeps_dec pat sel exc r : Decision (exactKeeps pat sel exc r).
Proof. unfold exactKeeps. apply _. Defined.

(** Patterns built by the CSV parser have twelve cells. *)
Definition wellFormed (r : Raga) : Prop :=
  length (notePattern r) = 12%nat ∧
  length (aarohPattern r) = 12%nat ∧
  length (avrohPattern r) = 12%nat.

(** The stages that run before the pitch-class stage. *)
Definition searchInput (ragas : list Raga) (q : SearchQuery) : list EnrichedRaga :=
  scaleStage (scaleType q) (nameStage (search q) (map enrich ragas)).

Definition exactQuery (sel exc : list Z) : SearchQuery :=
  mkSearchQuery "" ScaleAny "exact" false sel exc [] [] [] [].

(** ** The CSV file, the raga cache and the lookup by name *)

(** [csvText.split(/\r?\n/)]: a line ends at a line feed, or at a carriage
    return that a line feed follows; [cur] is the line being read, in
    reverse. *)
Fixpoint splitLines (s : string) (cur : string) : list string :=
  match s with
  | EmptyString => [String.rev cur]
  | String c rest =>
      if Ascii.eqb c "010" then String.rev cur :: splitLines rest EmptyString
      else if Ascii.eqb c "013" then
        match rest with
        | String c' rest' =>
            if Ascii.eqb c' "010"
            then String.rev cur :: splitLines rest' EmptyString
            else splitLines rest (String c cur)
        | EmptyString => splitLines rest (String c cur)
        end
      else splitLines rest (String c cur)
  end.

(** [const [name, aroha, avroh] = line.split(',')] followed by the body of
    the loop; a field that is missing is [undefined], which [!] rejects as
    it rejects the empty string. *)
Definition parseLine (line : string) : option Raga :=
  match splitOn "," line EmptyString with
  | name :: aroha :: avroh :: _ => parseRow name aroha avroh
  | _ => None
  end.

(** [parseAarohAvrohCSV]: blank lines are dropped, the loop starts at index
    1 (the header is line 0) and pushes one raga per accepted line. *)
Definition parseAarohAvrohCSV (csvText : string) : list Raga :=
  let lines := List.filter (λ l, negb (String.eqb l "")) (splitLines csvText EmptyString) in
  fold_left
    (λ out line, match parseLine line with
                 | Some r => out ++ [r]
                 | None => out
                 end)
    (drop 1 lines) [].

(** [getRagas]: [ragaCache] is [None] for [null]; [file] is what
    [fs.readFileSync] gives, [None] when it throws.  The result is the
    returned list and the new value of [ragaCache]. *)
Definition getRagas (ragaCache : option (list Raga)) (file : option string)
    : list Raga * option (list Raga) :=
  match ragaCache with
  | Some cached => (cached, Some cached)
  | None =>
      let loaded := match file with
                    | Some text => parseAarohAvrohCSV text
                    | None => []
                    end in
      (loaded, Some loaded)
  end.

(** [ragas.find(x => x.name.toLowerCase() === name.toLowerCase())] *)
Definition findRaga (ragas : list Raga) (requested : string) : option Raga :=
  List.find (λ x, String.eqb (toLowerCase (name x)) (toLowerCase requested)) ragas.

(** ** The chords and aggregates routes *)

(** What [parseInt(s, 10)] returned. *)
Inductive ParsedInt :=
  | PNaN
  | PInt (z : Z).

(** [app.get('/api/ragas/:name/chords', ...)] once the query strings have
    their defaults: [r] is the result of the lookup, [selectedNote] and
    [tonic] are [None] when the parameter is missing and otherwise hold
    what [parseInt] made of it. *)
Definition chordsRoute (r : option Raga) (part chordType extend : string)
    (selectedNote : option ParsedInt) (filterMode : string)
    (tonic : option ParsedInt) : Response (list Chord) :=
  let extendBool := String.eqb (toLowerCase extend) "true" in
  match r with
  | None => Error 404 "Not found"
  | Some r =>
      let pattern := if String.eqb part "aaroh" then aarohPattern r
                     else if String.eqb part "avroh" then avrohPattern r
                     else notePattern r in
      let chords := availableChordsForPattern pattern chordType extendBool in
      let chords := match selectedNote with
                    | Some (PInt sel) => filterChordsByNote chords (Some sel) (Some filterMode)
                    | Some PNaN | None => chords
                    end in
      let chords := match tonic with
                    | Some (PInt tnx) => attachWesternNames chords (Some (NInt tnx))
                    | Some PNaN | None => chords
                    end in
      Ok chords
  end.

(** ** Further statement-side definitions *)

(** The (template, root) pair of a chord. *)
Definition chordKey (m : Chord) : ChordType * Z := (type m, root m).

(** A cell of a parsed pattern is 0 or 1. *)
Definition binaryPattern (pattern : list Z) : Prop :=
  Forall (λ v, v = 0 ∨ v = 1) pattern.

(** The contains-mode test for one pattern and its include/exclude lists. *)
Definition containsKeeps (pat : Raga → list Z) (sel exc : list Z)
    (r : EnrichedRaga) : Prop :=
  (toSet sel ≠ ∅ →
   set_Forall (λ i, js_index (pat (raga r)) i = Some 1) (toSet sel ∪ {[0]})) ∧
  excludedAbsent (pat (raga r)) (toSet exc).

#[global] Instance containsKeeps_dec pat sel exc r :
  Decision (containsKeeps pat sel exc r).
Proof. unfold containsKeeps. apply _. Defined.

(** A pattern in which every pitch class of 0..11 is truthy. *)
Definition fullPattern (pattern : list Z) : Prop :=
  Forall (λ n, truthy (js_index pattern n) = true) roots12.

(** One step of the [reduce] of [countSwaras]. *)
Definition swaraStep (pattern : list Z) (count : Z) (group : list Z) : Z :=
  count + (if existsb (λ idx, bool_decide (js_index pattern idx = Some 1)) group
           then 1 else 0).

(** Every cell that is 1 in [p] is 1 in [q], over the pitch classes 0..11. *)
Definition patternIncluded (p q : list Z) : Prop :=
  ∀ i, 0 ≤ i ≤ 11 → js_index p i = Some 1 → js_index q i = Some 1.

(** The body of the inner loop of [toPattern]. *)
Definition markLetter (present : list Z) (ch : ascii) : list Z :=
  match swaraIndex ch with
  | Some i => <[i := 1]> present
  | None => present
  end.

(** The non-blank lines of a CSV text, as [parseAarohAvrohCSV] sees them. *)
Definition csvLines (csvText : string) : list string :=
  List.filter (λ l, negb (String.eqb l "")) (splitLines csvText EmptyString).

(** A string of ASCII characters (codes below 128). *)
Definition isAscii (s : string) : bool :=
  forallb (λ c, (nat_of_ascii c <? 128)%nat) (list_ascii_of_string s).

(** The same query under another search mode. *)
Definition withMode (q : SearchQuery) (mode : string) : SearchQuery :=
  mkSearchQuery (search q) (scaleType q) mode (separate q)
    (selectedNotes q) (excludedNotes q)
    (selectedAarohNotes q) (excludedAarohNotes q)
    (selectedAvrohNotes q) (excludedAvrohNotes q).

(** What the pitch-class stage keeps in exact mode and in contains mode,
    over the patterns the mode of direction selects. *)
Definition exactKeepsAll (q : SearchQuery) (r : EnrichedRaga) : Prop :=
  if separate q
  then exactKeeps aarohPattern (selectedAarohNotes q) (excludedAarohNotes q) r ∧
       exactKeeps avrohPattern (selectedAvrohNotes q) (excludedAvrohNotes q) r
  else exactKeeps notePattern (selectedNotes q) (excludedNotes q) r.

Definition containsKeepsAll (q : SearchQuery) (r : EnrichedRaga) : Prop :=
  if separate q
  then containsKeeps aarohPattern (selectedAarohNotes q) (excludedAarohNotes q) r ∧
       containsKeeps avrohPattern (selectedAvrohNotes q) (excludedAvrohNotes q) r
  else containsKeeps notePattern (selectedNotes q) (excludedNotes q) r.

#[global] Instance exactKeepsAll_dec q r : Decision (exactKeepsAll q r).
Proof. unfold exactKeepsAll. destruct (separate q); apply _. Defined.

#[global] Instance containsKeepsAll_dec q r : Decision (containsKeepsAll q r).
Proof. unfold containsKeepsAll. destruct (separate q); apply _. Defined.

(** The pattern that the [part] parameter of the chords route selects. *)
Definition selectPattern (r : Raga) (part : string) : list Z :=
  if String.eqb part "aaroh" then aarohPattern r
  else if String.eqb part "avroh" then avrohPattern r
  else notePattern r.

(** * Properties *)

(** ** Loops as list comprehensions *)

Lemma rootStep_app pattern extend ct result r :
  rootStep pattern extend ct result r =
  result ++ (if accepts pattern extend ct r then [chordAt extend ct r] else []).
Proof.
  unfold rootStep, accepts, chordAt.
  destruct (truthy (js_index pattern r)); simpl.
  - destruct (forallb _ _); [reflexivity | by rewrite app_nil_r].
  - by rewrite app_nil_r.
Qed.

Lemma fold_rootStep pattern extend ct roots : ∀ result,
  fold_left (rootStep pattern extend ct) roots result =
  result ++ map (chordAt extend ct) (List.filter (accepts pattern extend ct) roots).
Proof.
  induction roots as [|r roots IH]; intros result; simpl.
  - by rewrite app_nil_r.
  - rewrite IH, rootStep_app.
    destruct (accepts pattern extend ct r); simpl.
    + by rewrite <- app_assoc.
    + by rewrite app_nil_r.
Qed.

Lemma fold_types pattern extend types : ∀ result,
  fold_left (λ result ct, fold_left (rootStep pattern extend ct) roots12 result)
    types result =
  result ++ flat_map (matchesOf pattern extend) types.
Proof.
  induction types as [|ct types IH]; intros result; cbn [fold_left flat_map].
  - by rewrite app_nil_r.
  - rewrite IH, fold_rootStep. by rewrite <- app_assoc.
Qed.

Lemma available_flat_map pattern chordId extend :
  availableChordsForPattern pattern chordId extend =
  flat_map (matchesOf pattern extend) (selectTypes chordId).
Proof. unfold availableChordsForPattern. by rewrite fold_types. Qed.

Lemma selectTypes_In chordId ct :
  In ct (selectTypes chordId) →
  In ct chordTypes ∧ (chordId = "all" ∨ chordId = "" ∨ ct_id ct = chordId).
Proof.
  unfold selectTypes.
  destruct (String.eqb chordId "all") eqn:Hall; cbn [orb].
  { apply String.eqb_eq in Hall. auto. }
  destruct (String.eqb chordId "") eqn:Hemp.
  { apply String.eqb_eq in Hemp. auto. }
  rewrite filter_In. intros [Hin Hid]. apply String.eqb_eq in Hid. auto.
Qed.

(** Every emitted chord is [chordAt] of a selected template at an accepted
    root of 0..11. *)
Lemma available_In pattern chordId extend m :
  In m (availableChordsForPattern pattern chordId extend) ↔
  ∃ ct r, In ct (selectTypes chordId) ∧ In r roots12 ∧
          accepts pattern extend ct r = true ∧ m = chordAt extend ct r.
Proof.
  rewrite available_flat_map, in_flat_map. unfold matchesOf. split.
  - intros (ct & Hct & Hm). apply in_map_iff in Hm as (r & <- & Hr).
    apply filter_In in Hr as [Hr Hacc]. eauto 10.
  - intros (ct & r & Hct & Hr & Hacc & ->). exists ct. split; [done|].
    apply in_map_iff. exists r. split; [done|]. by apply filter_In.
Qed.

Lemma roots12_In r : In r roots12 ↔ 0 ≤ r ≤ 11.
Proof.
  unfold roots12. simpl. split.
  - intros H. repeat (destruct H as [<- | H]; [lia|]). done.
  - intros H.
    assert (r = 0 ∨ r = 1 ∨ r = 2 ∨ r = 3 ∨ r = 4 ∨ r = 5 ∨ r = 6 ∨ r = 7 ∨
            r = 8 ∨ r = 9 ∨ r = 10 ∨ r = 11) as Hr by lia.
    repeat (destruct Hr as [-> | Hr]; [tauto|]). subst. tauto.
Qed.

(** Offsets used for catalog templates, extended or not, lie in 0..11. *)
Lemma catalog_offsets_range ct extend i :
  In ct chordTypes → In i (getExtendedIntervals (ct_intervals ct) extend) →
  0 ≤ i ≤ 11.
Proof.
  intros Hct Hi.
  assert (forallb (λ ct, forallb (λ e, forallb (λ i, (0 <=? i) && (i <=? 11))
            (getExtendedIntervals (ct_intervals ct) e)) [true; false]) chordTypes
          = true) as Hall by (vm_compute; reflexivity).
  rewrite forallb_forall in Hall. specialize (Hall ct Hct).
  rewrite forallb_forall in Hall.
  assert (In extend [true; false]) as He by (destruct extend; simpl; auto).
  specialize (Hall extend He). rewrite forallb_forall in Hall.
  specialize (Hall i Hi). lia.
Qed.

Lemma js_rem_mod a : 0 ≤ a → js_rem a 12 = a `mod` 12.
Proof. intros Ha. unfold js_rem. apply Z.rem_mod_nonneg; lia. Qed.

Lemma catalog_notes_mod ct extend r :
  In ct chordTypes → 0 ≤ r →
  map (λ x, js_rem (r + x) 12) (getExtendedIntervals (ct_intervals ct) extend) =
  map (λ x, (r + x) `mod` 12) (getExtendedIntervals (ct_intervals ct) extend).
Proof.
  intros Hct Hr. apply map_ext_in. intros i Hi.
  apply js_rem_mod. pose proof (catalog_offsets_range ct extend i Hct Hi). lia.
Qed.

(** ** Order of emission *)

Lemma sublist_List_filter {A} (f : A → bool) (l : list A) :
  sublist (List.filter f l) l.
Proof.
  induction l as [|x l IH]; simpl; [constructor|].
  destruct (f x); by constructor.
Qed.

Lemma sublist_map {A B} (f : A → B) (l1 l2 : list A) :
  sublist l1 l2 → sublist (map f l1) (map f l2).
Proof. induction 1; simpl; by constructor. Qed.

Lemma sublist_flat_map {A B} (f g : A → list B) (l1 l2 : list A) :
  (∀ x, sublist (f x) (g x)) → sublist l1 l2 →
  sublist (flat_map f l1) (flat_map g l2).
Proof.
  intros Hfg. induction 1 as [|x l1 l2 _ IH|x l1 l2 _ IH]; simpl.
  - constructor.
  - by apply sublist_app.
  - by apply sublist_inserts_l.
Qed.

Lemma selectTypes_sublist chordId : sublist (selectTypes chordId) chordTypes.
Proof.
  unfold selectTypes. destruct (_ || _); [done|]. apply sublist_List_filter.
Qed.

Lemma available_keys_sublist pattern chordId extend :
  sublist (map (λ m, (type m, root m))
             (availableChordsForPattern pattern chordId extend))
          (list_prod chordTypes roots12).
Proof.
  rewrite available_flat_map.
  assert (∀ l, map (λ m : Chord, (type m, root m))
                 (flat_map (matchesOf pattern extend) l) =
               flat_map (λ ct, map (pair ct)
                 (List.filter (accepts pattern extend ct) roots12)) l) as ->.
  { induction l as [|ct l IH]; simpl; [done|].
    rewrite map_app, IH. f_equal. unfold matchesOf. rewrite map_map. done. }
  assert (∀ l, list_prod l roots12 = flat_map (λ ct, map (pair ct) roots12) l) as ->.
  { induction l as [|ct l IH]; [done|]. cbn [list_prod flat_map]. by rewrite IH. }
  apply sublist_flat_map; [|apply selectTypes_sublist].
  intros ct. apply sublist_map, sublist_List_filter.
Qed.


(** ** The chord matcher is sound and ordered *)

Lemma catalog_product_NoDup : NoDup (list_prod chordTypes roots12).
Proof.
  assert (bool_decide (NoDup (list_prod chordTypes roots12)) = true) as Hchk
    by (vm_compute; reflexivity).
  by apply bool_decide_eq_true_1 in Hchk.
Qed.

Lemma accepts_present pattern extend ct r :
  accepts pattern extend ct r = true →
  present pattern r ∧
  ∀ n, In n (map (λ x, js_rem (r + x) 12)
               (getExtendedIntervals (ct_intervals ct) extend)) →
       present pattern n.
Proof.
  unfold accepts, present. rewrite andb_true_iff, forallb_forall. tauto.
Qed.

(** C1. Soundness and order of the chord matcher: for every pattern, every
    template filter and every extension flag, each chord emitted by
    [availableChordsForPattern] comes from a catalog template that passes
    the filter, has a root of 0..11 that is present in the pattern, carries
    the notes [(root + i) mod 12] for [i] in the (possibly extended) interval
    list, and each of those notes is present in the pattern; the emitted
    (template, root) pairs form a subsequence of the catalog-by-roots
    product, whose pairs are all different: chords come in catalog order
    and, for one template, by ascending root. *)
Theorem C1_chord_matcher_sound (pattern : list Z) (chordId : string) (extend : bool) :
  (∀ m, In m (availableChordsForPattern pattern chordId extend) →
     In (type m) chordTypes ∧
     (chordId = "all" ∨ chordId = "" ∨ ct_id (type m) = chordId) ∧
     0 ≤ root m ≤ 11 ∧
     present pattern (root m) ∧
     notes m = map (λ i, (root m + i) `mod` 12)
                 (getExtendedIntervals (ct_intervals (type m)) extend) ∧
     (∀ i, In i (getExtendedIntervals (ct_intervals (type m)) extend) →
           present pattern ((root m + i) `mod` 12)))
  ∧ sublist (map (λ m, (type m, root m))
               (availableChordsForPattern pattern chordId extend))
            (list_prod chordTypes roots12)
  ∧ NoDup (list_prod chordTypes roots12).
Proof.
  split; [|split; [apply available_keys_sublist | apply catalog_product_NoDup]].
  intros m Hm. apply available_In in Hm as (ct & r & Hct & Hr & Hacc & ->).
  apply selectTypes_In in Hct as [Hct Hid]. apply roots12_In in Hr.
  apply accepts_present in Hacc as [Hroot Hnotes].
  cbn [chordAt type root notes].
  repeat split; try done; try lia.
  - apply catalog_notes_mod; [done | lia].
  - intros i Hi. rewrite <- js_rem_mod.
    + apply Hnotes, in_map_iff. by exists i.
    + pose proof (catalog_offsets_range ct extend i Hct Hi). lia.
Qed.

Lemma C1_chord_matcher_sound_witness :
  present pentatonic 0 ∧ present pentatonic ((0 + 7) `mod` 12).
Proof.
  assert (In (chordAt false majorType 0)
            (availableChordsForPattern pentatonic "major" false)) as Hin
    by (vm_compute; left; reflexivity).
  destruct (proj1 (C1_chord_matcher_sound pentatonic "major" false) _ Hin)
    as (_ & _ & _ & Hroot & _ & Hall).
  split; [exact Hroot|].
  apply (Hall 7). vm_compute. tauto.
Defined.

(** ** The extension rule *)

Lemma Math_max_spec rest : ∀ x,
  In (Math_max x rest) (x :: rest) ∧ Forall (λ y, y ≤ Math_max x rest) (x :: rest).
Proof.
  induction rest as [|y rest IH]; intros x; cbn [Math_max].
  - split; [by left|]. constructor; [lia | constructor].
  - destruct (IH (Z.max x y)) as [Hin Hle]. split.
    + destruct Hin as [Heq | Hin]; [|right; by right].
      rewrite <- Heq. destruct (Z.max_spec x y) as [[_ ->] | [_ ->]];
        [right; by left | by left].
    + inversion Hle as [|? ? Hhd Htl]; subst.
      constructor; [lia|]. constructor; [lia | done].
Qed.

Lemma chordAt_isExtended extend ct r :
  isExtended (chordAt extend ct r) = true ↔
  extend = true ∧
  (length (ct_intervals ct) <
   length (getExtendedIntervals (ct_intervals ct) extend))%nat.
Proof.
  cbn [chordAt isExtended]. rewrite andb_true_iff, Nat.ltb_lt. tauto.
Qed.

(** C2. Extension rule: [getExtendedIntervals B extend] is [B] itself when
    [extend] is false or [B] has fewer than three elements; otherwise it is
    [B] followed by the single value [(highest + 3) % 12], where [highest]
    is the maximum of [B] (an element of [B] above all the others), and for
    offsets that are not negative, as all interval lists of the catalog
    are, [%] is the mathematical modulo.  For every chord emitted under
    extension flag [e], [isExtended] is true exactly when [e] is true and
    the interval list used is longer than the template's own list; it is
    true also when the appended offset repeats one of the template: the
    extended diminished seventh appends 0 to [0; 3; 6; 9]. *)
Theorem C2_extension_rule :
  (∀ (B : list Z) (extend : bool),
     (extend = false ∨ (length B < 3)%nat → getExtendedIntervals B extend = B) ∧
     (extend = true → (3 ≤ length B)%nat →
      ∃ highest, In highest B ∧ Forall (λ x, x ≤ highest) B ∧
        getExtendedIntervals B extend = B ++ [js_rem (highest + 3) 12] ∧
        (Forall (λ x, 0 ≤ x) B → js_rem (highest + 3) 12 = (highest + 3) `mod` 12)))
  ∧ (∀ pattern chordId e m,
       In m (availableChordsForPattern pattern chordId e) →
       notes m = map (λ i, js_rem (root m + i) 12)
                   (getExtendedIntervals (ct_intervals (type m)) e) ∧
       (isExtended m = true ↔
        e = true ∧
        (length (ct_intervals (type m)) <
         length (getExtendedIntervals (ct_intervals (type m)) e))%nat))
  ∧ (∃ m, In m (availableChordsForPattern dim7Pattern "dim7" true) ∧
          isExtended m = true ∧
          getExtendedIntervals (ct_intervals (type m)) true =
            ct_intervals (type m) ++ [0] ∧
          In 0 (ct_intervals (type m))).
Proof.
  split; [|split].
  - intros B extend. split.
    + intros [-> | Hlen]; unfold getExtendedIntervals; [done|].
      apply Nat.ltb_lt in Hlen. rewrite Hlen. by rewrite orb_true_r.
    + intros -> Hlen. unfold getExtendedIntervals.
      assert ((length B <? 3)%nat = false) as -> by (apply Nat.ltb_ge; lia).
      cbn [negb orb]. destruct B as [|x rest]; [simpl in Hlen; lia|].
      destruct (Math_max_spec rest x) as [Hin Hle].
      exists (Math_max x rest). repeat split; try done.
      intros Hpos. apply js_rem_mod.
      rewrite List.Forall_forall in Hpos. specialize (Hpos _ Hin). lia.
  - intros pattern chordId e m Hm.
    apply available_In in Hm as (ct & r & _ & _ & _ & ->).
    split; [done | apply chordAt_isExtended].
  - exists (chordAt true dim7Type 0). split; [vm_compute; by left|].
    repeat split; vm_compute; auto.
Qed.

Lemma C2_extension_rule_witness :
  getExtendedIntervals [0; 1] true = [0; 1] ∧
  (∃ highest, In highest [0; 4; 7] ∧ Forall (λ x, x ≤ highest) [0; 4; 7] ∧
     getExtendedIntervals [0; 4; 7] true = [0; 4; 7] ++ [js_rem (highest + 3) 12] ∧
     (Forall (λ x, 0 ≤ x) [0; 4; 7] →
      js_rem (highest + 3) 12 = (highest + 3) `mod` 12)) ∧
  (isExtended (chordAt true dim7Type 0) = true ↔
   true = true ∧
   (length (ct_intervals dim7Type) <
    length (getExtendedIntervals (ct_intervals dim7Type) true))%nat).
Proof.
  split; [|split].
  - apply (proj1 (proj1 C2_extension_rule [0; 1] true)). right. simpl. lia.
  - apply (proj2 (proj1 C2_extension_rule [0; 4; 7] true)); [reflexivity|].
    simpl. lia.
  - apply (proj1 (proj2 C2_extension_rule) dim7Pattern "dim7" true
             (chordAt true dim7Type 0)).
    vm_compute. left. reflexivity.
Defined.

(** ** Aggregated counts *)

Lemma filter_partition_length {A} (f : A → bool) (l : list A) :
  (length (List.filter (λ x, negb (f x)) l) + length (List.filter f l))%nat
  = length l.
Proof.
  induction l as [|x l IH]; simpl; [done|].
  destruct (f x); simpl; lia.
Qed.

Lemma selectTypes_catalog_id ct :
  In ct chordTypes → selectTypes (ct_id ct) = [ct].
Proof.
  intros Hct.
  assert (forallb (λ ct, bool_decide (selectTypes (ct_id ct) = [ct])) chordTypes
          = true) as Hall by (vm_compute; reflexivity).
  rewrite forallb_forall in Hall. eapply bool_decide_eq_true_1, Hall, Hct.
Qed.

Lemma available_one_template pattern extend ct :
  In ct chordTypes →
  availableChordsForPattern pattern (ct_id ct) extend = matchesOf pattern extend ct.
Proof.
  intros Hct. rewrite available_flat_map, selectTypes_catalog_id by done.
  simpl. by rewrite app_nil_r.
Qed.

Lemma available_all pattern extend :
  availableChordsForPattern pattern "all" extend =
  flat_map (matchesOf pattern extend) chordTypes.
Proof. by rewrite available_flat_map. Qed.

Lemma fold_aggregatesStep r extend p types : ∀ acc,
  (∀ ct, In ct types → In ct chordTypes) →
  fold_left (aggregatesStep r extend p) types acc =
  mkAggregates
    (basic acc + length (List.filter (λ c, negb (isExtended c))
                           (flat_map (matchesOf (ragaPattern r p) extend) types)))
    (extended acc + length (List.filter (λ c, isExtended c)
                              (flat_map (matchesOf (ragaPattern r p) extend) types))).
Proof.
  induction types as [|ct types IH]; intros acc Hsub; cbn [fold_left flat_map].
  - destruct acc. simpl. f_equal; lia.
  - rewrite IH by (intros; apply Hsub; by right).
    unfold aggregatesStep. rewrite available_one_template by (apply Hsub; by left).
    cbn [basic extended]. rewrite !List.filter_app, !length_app. f_equal; lia.
Qed.

(** C6. Aggregate decomposition: in combined mode, [basic] counts the
    chords of the single all-templates enumeration over the combined
    pattern whose [isExtended] is false, [extended] those whose
    [isExtended] is true, their sum is the length of that enumeration, and
    this length is the sum over the catalog of the per-template counts. *)
Theorem C6_aggregate_decomposition (r : Raga) (extend : bool) :
  let allChords := availableChordsForPattern (notePattern r) "all" extend in
  let agg := aggregates r false extend in
  (basic agg + extended agg = length allChords)%nat ∧
  basic agg = length (List.filter (λ c, negb (isExtended c)) allChords) ∧
  extended agg = length (List.filter (λ c, isExtended c) allChords) ∧
  length allChords =
    fold_left (λ n ct, (n + length (availableChordsForPattern (notePattern r)
                                       (ct_id ct) extend))%nat) chordTypes 0%nat.
Proof.
  intros allChords agg.
  assert (agg = mkAggregates
            (length (List.filter (λ c, negb (isExtended c)) allChords))
            (length (List.filter (λ c, isExtended c) allChords))) as Hagg.
  { unfold agg, aggregates, allChords. cbn [fold_left].
    rewrite fold_aggregatesStep by done. by rewrite available_all. }
  rewrite Hagg. cbn [basic extended]. repeat split.
  - apply filter_partition_length.
  - unfold allChords. rewrite available_all.
    assert (∀ types n, (∀ ct, In ct types → In ct chordTypes) →
              fold_left (λ n ct, (n + length (availableChordsForPattern
                                   (notePattern r) (ct_id ct) extend))%nat) types n
              = (n + length (flat_map (matchesOf (notePattern r) extend) types))%nat)
      as Hsum.
    { induction types as [|ct types IH]; intros n Hsub; cbn [fold_left flat_map].
      - simpl. lia.
      - rewrite IH by (intros; apply Hsub; by right).
        rewrite available_one_template by (apply Hsub; by left).
        rewrite length_app. lia. }
    by rewrite Hsum.
Qed.

(** ** Distinctness of the note sequence *)

Lemma distinctNotesCheck_catalog extend ct r :
  In ct chordTypes → In r roots12 → distinctNotesCheck extend ct r = true.
Proof.
  intros Hct Hr.
  assert (forallb (λ e, forallb (λ ct, forallb (distinctNotesCheck e ct) roots12)
                            chordTypes) [true; false] = true) as Hall
    by (vm_compute; reflexivity).
  rewrite forallb_forall in Hall.
  assert (In extend [true; false]) as He by (destruct extend; simpl; auto).
  specialize (Hall extend He). rewrite forallb_forall in Hall.
  specialize (Hall ct Hct). rewrite forallb_forall in Hall. by apply Hall.
Qed.

(** C7, as stated, fails: the extended diminished seventh on the pattern
    {0, 3, 6, 9} is emitted at root 0 with notes 0, 3, 6, 9, 0. *)
Lemma C7_noteset_distinct_counterexample :
  ¬ (∀ pattern chordId extend m,
       In m (availableChordsForPattern pattern chordId extend) → NoDup (notes m)).
Proof.
  intros Hall.
  assert (In (chordAt true dim7Type 0)
            (availableChordsForPattern dim7Pattern "dim7" true)) as Hin
    by (vm_compute; left; reflexivity).
  apply Hall in Hin. vm_compute in Hin.
  apply NoDup_cons_1_1 in Hin. apply Hin. set_solver.
Qed.

(** C7, amended. The notes of an emitted chord are pairwise distinct,
    except for an extended chord of the templates dim7, maj6 and min6
    (highest offset 9): there the note sequence is the pairwise distinct
    notes of the unextended template followed by the root once more. *)
Theorem C7_noteset_distinct_amended (pattern : list Z) (chordId : string)
    (extend : bool) (m : Chord) :
  In m (availableChordsForPattern pattern chordId extend) →
  if extend && wrapsToRoot (type m)
  then notes m = map (λ i, (root m + i) `mod` 12) (ct_intervals (type m)) ++ [root m]
       ∧ NoDup (map (λ i, (root m + i) `mod` 12) (ct_intervals (type m)))
  else NoDup (notes m).
Proof.
  intros Hm. apply available_In in Hm as (ct & r & Hct & Hr & _ & ->).
  apply selectTypes_In in Hct as [Hct _].
  pose proof (distinctNotesCheck_catalog extend ct r Hct Hr) as Hchk.
  unfold distinctNotesCheck in Hchk. cbn [chordAt type root].
  destruct (extend && wrapsToRoot ct).
  - apply andb_true_iff in Hchk as [H1 H2].
    split; [by apply bool_decide_eq_true in H1 | by apply bool_decide_eq_true in H2].
  - by apply bool_decide_eq_true in Hchk.
Qed.

Lemma C7_noteset_distinct_amended_witness :
  NoDup (notes (chordAt false majorType 0)) ∧
  notes (chordAt true dim7Type 0) =
    map (λ i, (0 + i) `mod` 12) (ct_intervals dim7Type) ++ [0].
Proof.
  split.
  - apply (C7_noteset_distinct_amended pentatonic "major" false
             (chordAt false majorType 0)).
    vm_compute. left. reflexivity.
  - apply (C7_noteset_distinct_amended dim7Pattern "dim7" true
             (chordAt true dim7Type 0)).
    vm_compute. left. reflexivity.
Defined.

(** ** The pentatonic scenario *)

(** C8, as stated, fails: on the pattern {0, 2, 4, 7, 9} no major triad is
    emitted at root 4 (its notes 8 and 11 are absent), so the roots are not
    {0, 4, 7}. *)
Lemma C8_pentatonic_counterexample :
  ¬ (∀ r, In r (map root (availableChordsForPattern pentatonic "major" false))
          ↔ In r [0; 4; 7]).
Proof.
  intros Hall. destruct (Hall 4) as [_ Hback].
  assert (In 4 [0; 4; 7]) as H4 by (simpl; auto).
  apply Hback in H4. vm_compute in H4. destruct H4 as [H4 | []]. discriminate.
Qed.

(** C8, amended. On the pattern {0, 2, 4, 7, 9} the matcher restricted to
    the major template, without extension, returns exactly one chord: the
    major triad at root 0 with notes 0, 4, 7. *)
Theorem C8_pentatonic_amended :
  availableChordsForPattern pentatonic "major" false =
  [mkChord 0 (Some "Sa") [0; 4; 7] majorType false None].
Proof. vm_compute. reflexivity. Qed.

(** ** Filter by note *)

Lemma List_filter_stdpp {A} (f : A → bool) (P : A → Prop) `{∀ x, Decision (P x)}
    (l : list A) :
  (∀ x, In x l → (f x = true ↔ P x)) → List.filter f l = filter P l.
Proof.
  induction l as [|x l IH]; intros Hfp; [done|].
  cbn [List.filter]. rewrite filter_cons.
  assert (List.filter f l = filter P l) as -> by (apply IH; intros; apply Hfp; by right).
  destruct (Hfp x (or_introl eq_refl)) as [H1 H2].
  destruct (f x) eqn:Hfx; destruct (decide (P x)) as [Hp | Hn]; try done.
  - by destruct Hn; apply H1.
  - by specialize (H2 Hp).
Qed.

Lemma existsb_eqb_In (sel : Z) (l : list Z) :
  existsb (Z.eqb sel) l = true ↔ sel ∈ l.
Proof.
  rewrite existsb_exists, list_elem_of_In. split.
  - intros (x & Hx & Heq). apply Z.eqb_eq in Heq. by subst.
  - intros Hin. exists sel. split; [done | apply Z.eqb_refl].
Qed.

(** C10. Filter by note: with no selected note the list is returned as it
    is; with a selected note and any mode that is not ['any'] (['root'], an
    unknown word, or no mode at all) exactly the chords whose root is the
    selected note are kept; with mode ['any'] exactly the chords whose note
    sequence contains it; kept chords stay in their order. *)
Theorem C10_filter_by_note (chords : list Chord) :
  (∀ mode, filterChordsByNote chords None mode = chords) ∧
  (∀ sel mode, mode ≠ Some "any" →
     filterChordsByNote chords (Some sel) mode = filter (λ c, root c = sel) chords ∧
     ∀ c, In c (filterChordsByNote chords (Some sel) mode) ↔
          In c chords ∧ root c = sel) ∧
  (∀ sel,
     filterChordsByNote chords (Some sel) (Some "any") =
       filter (λ c, sel ∈ notes c) chords ∧
     ∀ c, In c (filterChordsByNote chords (Some sel) (Some "any")) ↔
          In c chords ∧ In sel (notes c)).
Proof.
  split; [done|]. split.
  - intros sel mode Hmode. unfold filterChordsByNote.
    rewrite bool_decide_eq_false_2 by done. split.
    + apply List_filter_stdpp. intros c _. apply Z.eqb_eq.
    + intros c. rewrite filter_In, Z.eqb_eq. tauto.
  - intros sel. unfold filterChordsByNote.
    rewrite bool_decide_eq_true_2 by done. split.
    + apply List_filter_stdpp. intros c _. apply existsb_eqb_In.
    + intros c. rewrite filter_In, existsb_eqb_In, list_elem_of_In. tauto.
Qed.

Lemma C10_filter_by_note_witness :
  filterChordsByNote [chordAt false majorType 0; chordAt false majorType 7]
    (Some 7) (Some "unknown") =
  filter (λ c, root c = 7) [chordAt false majorType 0; chordAt false majorType 7]
  ∧
  filterChordsByNote [chordAt false majorType 0; chordAt false majorType 7]
    (Some 7) None =
  filter (λ c, root c = 7) [chordAt false majorType 0; chordAt false majorType 7].
Proof.
  split.
  - apply (proj1 (proj2 (C10_filter_by_note _)) 7 (Some "unknown")). discriminate.
  - apply (proj1 (proj2 (C10_filter_by_note _)) 7 None). discriminate.
Defined.

(** ** Western names *)

Lemma quality_table ct : quality ct = qualitySuffix ct.
Proof.
  unfold quality, qualitySuffix.
  repeat match goal with
  | |- context [String.eqb (ct_id ct) ?s] =>
      destruct (String.eqb_spec (ct_id ct) s) as [-> | ?]; [reflexivity|]
  end.
  unfold qualityTable. cbn [list_to_map foldr fst snd uncurry].
  rewrite !lookup_insert_ne by done. by rewrite lookup_empty.
Qed.

Lemma js_join_concat sep (l : list string) :
  js_join sep (map Some l) = String.concat sep l.
Proof.
  induction l as [|x l IH]; [done|].
  destruct l as [|y l]; [done|].
  cbn [map js_join String.concat default] in *. by rewrite IH.
Qed.

Lemma westernNotesFlat_index k :
  0 ≤ k < 12 → js_index westernNotesFlat k = Some (westernNote k).
Proof.
  intros Hk. unfold js_index, westernNote. rewrite decide_True by lia.
  assert (Z.to_nat k < 12)%nat as Hlt by lia.
  destruct (Z.to_nat k) as [|[|[|[|[|[|[|[|[|[|[|[|n]]]]]]]]]]]]; try done; lia.
Qed.

Lemma roundDouble_safe z :
  (- MAX_SAFE_INTEGER) ≤ z ≤ MAX_SAFE_INTEGER → roundDouble z = NInt z.
Proof.
  intros Hz. unfold roundDouble.
  assert ((Z.abs z <=? MAX_SAFE_INTEGER) = true) as -> by (apply Z.leb_le; lia).
  done.
Qed.

Lemma western_lookup n tonic :
  0 ≤ n + tonic ≤ MAX_SAFE_INTEGER →
  js_index_number westernNotesFlat
    (js_rem_number (js_add (NInt n) (NInt tonic)) 12) =
  Some (westernNote ((n + tonic) `mod` 12)).
Proof.
  intros Hsum. cbn [js_add]. rewrite roundDouble_safe by lia.
  cbn [js_rem_number js_index_number]. rewrite js_rem_mod by lia.
  apply westernNotesFlat_index, Z.mod_pos_bound. lia.
Qed.

(** C9, as stated, fails: the table is read at [(pitch + t) % 12], which is
    [(pitch + t) mod 12] only when the sum is not negative and is computed
    without rounding.  With tonic -1 the major chord at root 0 is named
    ["undefined:  - E♭ - G♭"], not ["B: B - E♭ - G♭"]; with tonic [2 ^ 53]
    the sums [1 + t] and [5 + t] round, and the major chord at root 1 is
    named ["A♭: A♭ - C - E"], not ["A: A - D♭ - E"]. *)
Lemma C9_western_names_counterexample :
  attachWesternNames [mkChord 0 (Some "Sa") [0; 4; 7] majorType false None]
    (Some (NInt (-1))) =
    [mkChord 0 (Some "Sa") [0; 4; 7] majorType false
       (Some "undefined:  - E♭ - G♭")] ∧
  westernNameOf (-1) (mkChord 0 (Some "Sa") [0; 4; 7] majorType false None) =
    "B: B - E♭ - G♭" ∧
  attachWesternNames [mkChord 1 (Some "Re♭") [1; 5; 8] majorType false None]
    (Some (NInt (2 ^ 53))) =
    [mkChord 1 (Some "Re♭") [1; 5; 8] majorType false (Some "A♭: A♭ - C - E")] ∧
  westernNameOf (2 ^ 53) (mkChord 1 (Some "Re♭") [1; 5; 8] majorType false None) =
    "A: A - D♭ - E" ∧
  ¬ (∀ chords t,
       attachWesternNames chords (Some (NInt t)) =
       map (λ c, withWesternName c (westernNameOf t c)) chords).
Proof.
  split; [vm_compute; reflexivity|]. split; [vm_compute; reflexivity|].
  split; [vm_compute; reflexivity|]. split; [vm_compute; reflexivity|].
  intros Hall.
  specialize (Hall [mkChord 0 (Some "Sa") [0; 4; 7] majorType false None] (-1)).
  vm_compute in Hall. discriminate Hall.
Qed.

(** C9, amended. Western names: without a tonic the chord list is returned
    as it is; with an integer tonic [t] such that [root + t] and every
    [note + t] lie between 0 and [Number.MAX_SAFE_INTEGER] (as they do for
    pitch classes and a tonic of 0..11), every chord keeps its fields and
    receives the string made of the flat-spelling name found at
    [(root + t) mod 12], the quality suffix of the template id (the
    template's display name for an id outside the table), [": "], and the
    names found at [(n + t) mod 12] for its notes [n], joined by [" - "].
    With tonic 0 the major chord at root 0 with notes 0, 4, 7 is named
    ["C: C - E - G"]. *)
Theorem C9_western_names_amended :
  (∀ chords, attachWesternNames chords None = chords) ∧
  (∀ chords tonic,
     Forall (λ c, 0 ≤ root c + tonic ≤ MAX_SAFE_INTEGER ∧
                  Forall (λ n, 0 ≤ n + tonic ≤ MAX_SAFE_INTEGER) (notes c)) chords →
     attachWesternNames chords (Some (NInt tonic)) =
     map (λ c, withWesternName c (westernNameOf tonic c)) chords) ∧
  (∀ ct, (qualityTable !! ct_id ct = None → quality ct = ct_name ct) ∧
         (∀ q, qualityTable !! ct_id ct = Some q → quality ct = q)) ∧
  attachWesternNames [mkChord 0 (Some "Sa") [0; 4; 7] majorType false None]
    (Some (NInt 0)) =
    [mkChord 0 (Some "Sa") [0; 4; 7] majorType false (Some "C: C - E - G")].
Proof.
  split; [done|]. split; [|split].
  - intros chords tonic Hall. unfold attachWesternNames.
    apply map_ext_in. intros c Hc.
    rewrite List.Forall_forall in Hall. destruct (Hall c Hc) as [Hroot Hnotes].
    unfold withWesternName, westernNameOf. f_equal. f_equal.
    rewrite western_lookup by done. cbn [js_str default].
    rewrite quality_table. do 3 f_equal.
    rewrite <- js_join_concat, map_map. f_equal.
    apply map_ext_in. intros n Hn. rewrite List.Forall_forall in Hnotes.
    apply western_lookup. by apply Hnotes.
  - intros ct. rewrite quality_table. unfold qualitySuffix.
    split; [by intros -> | by intros q ->].
  - vm_compute. reflexivity.
Qed.

Lemma C9_western_names_amended_witness :
  attachWesternNames [chordAt false majorType 7] (Some (NInt 2)) =
    map (λ c, withWesternName c (westernNameOf 2 c)) [chordAt false majorType 7] ∧
  quality powerType = ct_name powerType ∧
  quality minorType = "m".
Proof.
  destruct C9_western_names_amended as (_ & Hmap & Hquality & _).
  split; [|split].
  - apply (Hmap [chordAt false majorType 7] 2).
    repeat constructor; vm_compute; discriminate.
  - apply (proj1 (Hquality powerType)). vm_compute. reflexivity.
  - apply (proj2 (Hquality minorType)). vm_compute. reflexivity.
Defined.

(** ** Custom interval matches *)

Lemma normalize_mod v : js_rem (js_rem v 12 + 12) 12 = v `mod` 12.
Proof. unfold js_rem. Z.to_euclidean_division_equations. lia. Qed.

Lemma normalizeIntervals_mod (l : list Z) :
  normalizeIntervals (map JNum l) = map (λ v, Some (v `mod` 12)) l.
Proof.
  unfold normalizeIntervals. rewrite map_map. apply map_ext.
  intros v. cbn [toNumber fmap option_fmap option_map]. f_equal. apply normalize_mod.
Qed.

Lemma fold_findMatchesStep pcs pattern roots : ∀ matches,
  fold_left (findMatchesStep pcs pattern) roots matches =
  matches ++ map (customAt pcs) (List.filter (customAccepts pcs pattern) roots).
Proof.
  induction roots as [|r roots IH]; intros matches; cbn [fold_left List.filter].
  - by rewrite app_nil_r.
  - rewrite IH. unfold findMatchesStep. fold (customAccepts pcs pattern r).
    fold (customAt pcs r). destruct (customAccepts pcs pattern r); [|done].
    by rewrite <- app_assoc.
Qed.

Lemma findMatches_In pcs pattern m :
  In m (findMatches pcs pattern) ↔
  ∃ r, 0 ≤ r ≤ 11 ∧ customAccepts pcs pattern r = true ∧ m = customAt pcs r.
Proof.
  unfold findMatches. rewrite fold_findMatchesStep, app_nil_l, in_map_iff.
  split.
  - intros (r & <- & Hr). apply filter_In in Hr as [Hr Hacc].
    apply roots12_In in Hr. eauto.
  - intros (r & Hr & Hacc & ->). exists r. split; [done|].
    apply filter_In. split; [by apply roots12_In | done].
Qed.

Lemma custom_notes_mod (l : list Z) r :
  0 ≤ r →
  map (λ iv : option Z, (λ x, js_rem (r + x) 12) <$> iv)
      (map (λ v, Some (v `mod` 12)) l) =
  map (λ v, Some ((r + v `mod` 12) `mod` 12)) l.
Proof.
  intros Hr. rewrite map_map. apply map_ext. intros v.
  cbn [fmap option_fmap option_map]. f_equal.
  apply js_rem_mod. pose proof (Z.mod_pos_bound v 12 ltac:(lia)). lia.
Qed.

Lemma customAccepts_mod (l : list Z) pattern r :
  0 ≤ r →
  customAccepts (map (λ v, Some (v `mod` 12)) l) pattern r = true ↔
  ∀ v, In v l → present pattern ((r + v `mod` 12) `mod` 12).
Proof.
  intros Hr. unfold customAccepts, present.
  rewrite custom_notes_mod, forallb_forall by done. split.
  - intros H v Hv.
    apply (H (Some ((r + v `mod` 12) `mod` 12))), in_map_iff. by exists v.
  - intros H n Hn. apply in_map_iff in Hn as (v & <- & Hv). by apply H.
Qed.

(** C4. Custom matcher: every interval [v] of a non-empty integer list is
    normalized by [((v % 12) + 12) % 12], which is the pitch class
    [v mod 12]; every root of 0..11 is tried, whether or not the root is
    itself in the pattern, and root [r] yields a match exactly when every
    normalized interval transposed by [r] is present; matches carry those
    transposed notes.  For the pattern {0, 4, 7} and intervals 0, 4, 7, 12
    only root 0 matches (so roots 4 and 7 do not), for each of the three
    patterns of the raga; for the single interval 4 the roots 3 and 8
    match although neither is in the pattern. *)
Theorem C4_custom_matcher :
  (∀ (pattern intervalsAbs : list Z),
     intervalsAbs ≠ [] →
     normalizeIntervals (map JNum intervalsAbs) =
       map (λ v, Some (js_rem (js_rem v 12 + 12) 12)) intervalsAbs ∧
     normalizeIntervals (map JNum intervalsAbs) =
       map (λ v, Some (v `mod` 12)) intervalsAbs ∧
     (∀ r, 0 ≤ r ≤ 11 →
        (∃ m, In m (findMatches (normalizeIntervals (map JNum intervalsAbs)) pattern)
              ∧ cm_root m = r) ↔
        (∀ v, In v intervalsAbs → present pattern ((r + v `mod` 12) `mod` 12))) ∧
     (∀ m, In m (findMatches (normalizeIntervals (map JNum intervalsAbs)) pattern) →
        0 ≤ cm_root m ≤ 11 ∧
        cm_notes m =
          map (λ v, Some ((cm_root m + v `mod` 12) `mod` 12)) intervalsAbs))
  ∧ Express.customMatches (JArray (map JNum [0; 4; 7; 12])) (Some triadRaga) =
      Ok (mkCustomMatches
            [mkCustomMatch 0 (Some "Sa") [Some 0; Some 4; Some 7; Some 0]]
            [mkCustomMatch 0 (Some "Sa") [Some 0; Some 4; Some 7; Some 0]]
            [mkCustomMatch 0 (Some "Sa") [Some 0; Some 4; Some 7; Some 0]])
  ∧ map cm_root (findMatches (normalizeIntervals (map JNum [0; 4; 7; 12]))
                   triadPattern) = [0]
  ∧ (map cm_root (findMatches (normalizeIntervals (map JNum [4])) triadPattern)
       = [0; 3; 8]
     ∧ ¬ present triadPattern 3 ∧ ¬ present triadPattern 8).
Proof.
  split; [|split; [|split]].
  - intros pattern l _. split; [|split; [|split]].
    + unfold normalizeIntervals. by rewrite map_map.
    + apply normalizeIntervals_mod.
    + intros r Hr. rewrite normalizeIntervals_mod.
      rewrite <- customAccepts_mod by lia. split.
      * intros (m & Hm & <-). apply findMatches_In in Hm as (r' & _ & Hacc & ->).
        exact Hacc.
      * intros Hacc. exists (customAt (map (λ v, Some (v `mod` 12)) l) r).
        split; [|done]. apply findMatches_In. eauto.
    + intros m Hm. rewrite normalizeIntervals_mod in Hm.
      apply findMatches_In in Hm as (r & Hr & _ & ->).
      cbn [customAt cm_root cm_notes]. split; [done|].
      apply custom_notes_mod. lia.
  - vm_compute. reflexivity.
  - vm_compute. reflexivity.
  - split; [vm_compute; reflexivity|]. split; vm_compute; discriminate.
Qed.

Lemma C4_custom_matcher_witness :
  (∃ m, In m (findMatches (normalizeIntervals (map JNum [0; 4; 7; 12])) triadPattern)
        ∧ cm_root m = 0) ↔
  (∀ v, In v [0; 4; 7; 12] → present triadPattern ((0 + v `mod` 12) `mod` 12)).
Proof.
  assert ([0; 4; 7; 12] ≠ []) as Hne by discriminate.
  destruct (proj1 C4_custom_matcher triadPattern [0; 4; 7; 12] Hne)
    as (_ & _ & Hiff & _).
  apply (Hiff 0). lia.
Defined.

(** ** Validation of the custom-matches input *)

(** C5, as stated, fails: the array [[null]] is not a list of integers, yet
    the route answers with matches (null is coerced to 0 by [%]) instead of
    an InvalidInput error; an array holding a non-numeric string is
    answered with three empty match lists, not with an error either. *)
Lemma C5_custom_validation_counterexample :
  specInvalidInput (JArray [JNull]) ∧
  Express.customMatches (JArray [JNull]) (Some triadRaga) =
    Ok (mkCustomMatches
          [mkCustomMatch 0 (Some "Sa") [Some 0]; mkCustomMatch 4 (Some "Ga") [Some 4];
           mkCustomMatch 7 (Some "Pa") [Some 7]]
          [mkCustomMatch 0 (Some "Sa") [Some 0]; mkCustomMatch 4 (Some "Ga") [Some 4];
           mkCustomMatch 7 (Some "Pa") [Some 7]]
          [mkCustomMatch 0 (Some "Sa") [Some 0]; mkCustomMatch 4 (Some "Ga") [Some 4];
           mkCustomMatch 7 (Some "Pa") [Some 7]]) ∧
  specInvalidInput (JArray [JNaN]) ∧
  Express.customMatches (JArray [JNaN]) (Some triadRaga) =
    Ok (mkCustomMatches [] [] []) ∧
  ¬ (∀ f r, specInvalidInput f →
            Express.customMatches f r = Error 400 "intervalsAbs required").
Proof.
  assert (specInvalidInput (JArray [JNull])) as Hinv by (right; reflexivity).
  split; [exact Hinv|]. split; [vm_compute; reflexivity|].
  split; [right; reflexivity|]. split; [vm_compute; reflexivity|].
  intros Hall. specialize (Hall _ (Some triadRaga) Hinv). discriminate Hall.
Qed.

(** C5, amended. The custom-match operation fails with InvalidInput, and
    computes no matches, exactly when the interval list is absent, is not
    an array, or is an empty array; the elements of the array are not
    validated.  For every non-empty array and known raga, in particular
    for every non-empty list of integers, it succeeds and returns the
    matches for the three patterns (ascending, descending, combined).  In
    the serverless handler the raga lookup and the POST check come first,
    so this holds there for a known raga and a POST request. *)
Theorem C5_custom_validation_amended :
  (∀ f r, rejectedInput f →
     Express.customMatches f r = Error 400 "intervalsAbs required") ∧
  (∀ f r, ¬ rejectedInput f →
     Express.customMatches f r ≠ Error 400 "intervalsAbs required") ∧
  (∀ elems r, elems ≠ [] →
     Express.customMatches (JArray elems) (Some r) =
       Ok (mkCustomMatches (findMatches (normalizeIntervals elems) (aarohPattern r))
                           (findMatches (normalizeIntervals elems) (avrohPattern r))
                           (findMatches (normalizeIntervals elems) (notePattern r)))) ∧
  (∀ (l : list Z) r, l ≠ [] →
     Express.customMatches (JArray (map JNum l)) (Some r) =
       Ok (customMatchesBody (map (λ v, Some (v `mod` 12)) l) r)) ∧
  (∀ f r, rejectedInput f →
     Netlify.customMatches "POST" f (Some r) = Error 400 "intervalsAbs required") ∧
  (∀ elems r, elems ≠ [] →
     Netlify.customMatches "POST" (JArray elems) (Some r) =
       Express.customMatches (JArray elems) (Some r)).
Proof.
  split; [|split; [|split; [|split; [|split]]]].
  - intros f r [-> | [-> | ->]]; reflexivity.
  - intros f r Hrej Herr. apply Hrej. unfold rejectedInput.
    destruct f as [| |[|e elems]]; auto.
    simpl in Herr. destruct r; discriminate.
  - intros [|e elems] r Hne; [done | reflexivity].
  - intros [|v l] r Hne; [done|].
    rewrite <- normalizeIntervals_mod. reflexivity.
  - intros f r [-> | [-> | ->]]; reflexivity.
  - intros [|e elems] r Hne; [done | reflexivity].
Qed.

Lemma C5_custom_validation_amended_witness :
  Express.customMatches (JArray []) None = Error 400 "intervalsAbs required" ∧
  Express.customMatches (JArray [JNum 0; JNum 16]) (Some triadRaga) ≠
    Error 400 "intervalsAbs required" ∧
  Express.customMatches (JArray (map JNum [0; 16])) (Some triadRaga) =
    Ok (customMatchesBody (map (λ v, Some (v `mod` 12)) [0; 16]) triadRaga) ∧
  Netlify.customMatches "POST" JAbsent (Some triadRaga) =
    Error 400 "intervalsAbs required".
Proof.
  destruct C5_custom_validation_amended as (H1 & H2 & _ & H4 & H5 & _).
  split; [|split; [|split]].
  - apply H1. right. right. reflexivity.
  - apply H2. intros [H | [H | H]]; discriminate H.
  - apply H4. discriminate.
  - apply H5. left. reflexivity.
Defined.

(** ** Exact-set search *)

Lemma toPattern_length s : length (toPattern s) = 12%nat.
Proof.
  unfold toPattern.
  assert (∀ chs (present : list Z),
            length (fold_left (λ present ch,
                      match swaraIndex ch with
                      | Some i => <[i := 1]> present
                      | None => present
                      end) chs present) = length present) as Hinner.
  { induction chs as [|ch chs IH]; intros present; cbn [fold_left]; [done|].
    rewrite IH. destruct (swaraIndex ch); [apply length_insert | done]. }
  assert (∀ toks (present : list Z),
            length (fold_left (λ present tok,
                      fold_left (λ present ch,
                         match swaraIndex ch with
                         | Some i => <[i := 1]> present
                         | None => present
                         end) (list_ascii_of_string (trim tok)) present)
                      toks present) = length present) as Houter.
  { induction toks as [|tok toks IH]; intros present; cbn [fold_left]; [done|].
    by rewrite IH, Hinner. }
  by rewrite Houter, length_replicate.
Qed.

(** Every raga read from a CSV row has twelve-cell patterns. *)
Lemma parseRow_wellFormed name aroha avroh r :
  parseRow name aroha avroh = Some r → wellFormed r.
Proof.
  unfold parseRow. destruct (_ || _); [done|]. intros [= <-].
  unfold wellFormed. cbn [notePattern aarohPattern avrohPattern].
  by rewrite length_imap, !toPattern_length.
Qed.

Lemma parseRow_demo : parseRow "Demo" "S-G" "G-S" = Some demoRaga.
Proof. vm_compute. reflexivity. Qed.

Lemma forallb_imap {A} (l : list A) : ∀ (g : nat → A → bool),
  forallb id (imap g l) = true ↔ ∀ i v, l !! i = Some v → g i v = true.
Proof.
  induction l as [|x l IH]; intros g.
  - split; [intros _ i v Hi; by destruct i | done].
  - rewrite imap_cons. cbn [forallb id]. rewrite andb_true_iff, IH. split.
    + intros [H0 Hrest] [|i] v Hi; [by injection Hi as <- | by apply Hrest].
    + intros H. split; [by apply (H 0%nat) | intros i v Hi; by apply (H (S i))].
Qed.

Lemma everyIdx_spec (pattern : list Z) (f : Z → Z → bool) :
  everyIdx f pattern = true ↔
  ∀ (i : nat) v, pattern !! i = Some v → f v (Z.of_nat i) = true.
Proof. unfold everyIdx. apply forallb_imap. Qed.

Lemma js_index_nat {A} (l : list A) (i : nat) : js_index l (Z.of_nat i) = l !! i.
Proof. unfold js_index. rewrite decide_True by lia. by rewrite Nat2Z.id. Qed.

Lemma exactMatch_spec pattern (S : gset Z) :
  length pattern = 12%nat →
  exactMatch pattern S = true ↔ patternIsSet pattern (S ∪ {[0]}).
Proof.
  intros Hlen. unfold exactMatch, patternIsSet.
  rewrite everyIdx_spec, List.Forall_forall. split.
  - intros H idx Hidx. apply roots12_In in Hidx.
    destruct (lookup_lt_is_Some_2 pattern (Z.to_nat idx)) as [v Hv]; [lia|].
    specialize (H _ _ Hv). rewrite Z2Nat.id in H by lia.
    apply Z.eqb_eq in H. subst v.
    replace idx with (Z.of_nat (Z.to_nat idx)) at 1 by lia.
    rewrite js_index_nat, Hv. f_equal.
    destruct (decide (idx ∈ S ∪ {[0]})) as [Hin | Hout].
    + by rewrite bool_decide_eq_true_2.
    + by rewrite bool_decide_eq_false_2.
  - intros H i v Hv. apply lookup_lt_Some in Hv as Hlt.
    assert (In (Z.of_nat i) roots12) as Hin by (apply roots12_In; lia).
    specialize (H _ Hin). rewrite js_index_nat, Hv in H. injection H as ->.
    apply Z.eqb_eq.
    destruct (decide (Z.of_nat i ∈ S ∪ {[0]})) as [Hin' | Hout].
    + by rewrite bool_decide_eq_true_2.
    + by rewrite bool_decide_eq_false_2.
Qed.

Lemma filter_all_stdpp {A} (P : A → Prop) `{∀ x, Decision (P x)} (l : list A) :
  (∀ x, In x l → P x) → filter P l = l.
Proof.
  induction l as [|x l IH]; intros Hall; [done|].
  rewrite filter_cons, decide_True by (apply Hall; by left).
  f_equal. apply IH. intros y Hy. apply Hall. by right.
Qed.

Lemma filter_none_stdpp {A} (P : A → Prop) `{∀ x, Decision (P x)} (l : list A) :
  (∀ x, In x l → ¬ P x) → filter P l = [].
Proof.
  induction l as [|x l IH]; intros Hall; [done|].
  rewrite filter_cons, decide_False by (apply Hall; by left).
  apply IH. intros y Hy. apply Hall. by right.
Qed.

Lemma filter_ext_stdpp {A} (P Q : A → Prop) `{∀ x, Decision (P x)}
    `{∀ x, Decision (Q x)} (l : list A) :
  (∀ x, In x l → (P x ↔ Q x)) → filter P l = filter Q l.
Proof.
  induction l as [|x l IH]; intros Hpq; [done|].
  rewrite !filter_cons.
  assert (filter P l = filter Q l) as -> by (apply IH; intros; apply Hpq; by right).
  destruct (Hpq x (or_introl eq_refl)).
  destruct (decide (P x)), (decide (Q x)); tauto.
Qed.

Lemma filter_In_stdpp {A} (P : A → Prop) `{∀ x, Decision (P x)} (l : list A) x :
  In x (filter P l) → In x l.
Proof.
  rewrite <- !list_elem_of_In, list_elem_of_filter. tauto.
Qed.

Lemma toSet_In (ns : list Z) i : i ∈ toSet ns ↔ In i ns ∧ 0 ≤ i ≤ 11.
Proof.
  unfold toSet.
  rewrite elem_of_list_to_set, list_elem_of_In, filter_In, andb_true_iff, !Z.leb_le.
  tauto.
Qed.

Lemma toSet_range (ns : list Z) i : i ∈ toSet ns → 0 ≤ i ≤ 11.
Proof. rewrite toSet_In. tauto. Qed.

Lemma size_pos_nonempty (S : gset Z) : (0 < size S)%nat ↔ S ≠ ∅.
Proof.
  rewrite <- (leibniz_equiv_iff S ∅), <- size_non_empty_iff. lia.
Qed.

Lemma includeStage_exact pat (S : gset Z) (l : list EnrichedRaga) :
  (∀ r, In r l → length (pat (raga r)) = 12%nat) →
  includeStage "exact" pat S l =
  filter (λ r, S ≠ ∅ → patternIsSet (pat (raga r)) (S ∪ {[0]})) l.
Proof.
  intros Hlen. unfold includeStage.
  destruct (decide (0 < size S)%nat) as [Hpos | Hzero].
  - rewrite bool_decide_eq_true_2 by done. cbn [String.eqb Ascii.eqb Bool.eqb].
    apply size_pos_nonempty in Hpos.
    apply List_filter_stdpp. intros r Hr.
    rewrite exactMatch_spec by (by apply Hlen). tauto.
  - rewrite bool_decide_eq_false_2 by done.
    symmetry. apply filter_all_stdpp.
    intros r _ Hne. by apply size_pos_nonempty in Hne.
Qed.

Lemma excludeStage_spec pat (E : gset Z) (l : list EnrichedRaga) :
  excludeStage pat E l = filter (λ r, excludedAbsent (pat (raga r)) E) l.
Proof.
  unfold excludeStage.
  destruct (decide (0 < size E)%nat) as [Hpos | Hzero].
  - rewrite bool_decide_eq_true_2 by done.
    apply List_filter_stdpp. intros r _.
    unfold excludedAbsent, set_Forall. rewrite forallb_forall. split.
    + intros H i Hi.
      assert (In i (elements E)) as Hin by (by apply list_elem_of_In, elem_of_elements).
      apply H in Hin. by apply bool_decide_eq_true_1 in Hin.
    + intros H i Hi. apply bool_decide_eq_true_2, H.
      by apply elem_of_elements, list_elem_of_In.
  - rewrite bool_decide_eq_false_2 by done.
    symmetry. apply filter_all_stdpp.
    intros r _ i Hi. exfalso. apply Hzero, size_pos_nonempty. set_solver.
Qed.

Lemma searchInput_In ragas q r :
  In r (searchInput ragas q) → In (raga r) ragas.
Proof.
  unfold searchInput, scaleStage, nameStage. intros Hr.
  assert (In r (map enrich ragas)) as Hin.
  { destruct (scaleType q); destruct (negb _);
      repeat (apply filter_In in Hr as [Hr _]); done. }
  apply in_map_iff in Hin as (r0 & <- & Hr0). done.
Qed.

Lemma exactKeeps_disjoint pat sel exc r :
  toSet sel ≠ ∅ →
  (∀ i, i ∈ toSet exc → i ∉ toSet sel ∪ {[0]}) →
  exactKeeps pat sel exc r ↔ patternIsSet (pat (raga r)) (toSet sel ∪ {[0]}).
Proof.
  intros Hne Hdisj. unfold exactKeeps. split; [intros [H _]; by apply H|].
  intros Hset. split; [done|]. intros i Hi.
  unfold patternIsSet in Hset. rewrite List.Forall_forall in Hset.
  assert (In i roots12) as Hin by (by eapply roots12_In, toSet_range).
  rewrite (Hset i Hin). by rewrite decide_False by (by apply Hdisj).
Qed.

Lemma exactKeeps_overlap pat sel exc r i :
  toSet sel ≠ ∅ → i ∈ toSet exc → i ∈ toSet sel ∪ {[0]} →
  ¬ exactKeeps pat sel exc r.
Proof.
  intros Hne Hexc Hsel [Hset Habs]. specialize (Hset Hne).
  unfold patternIsSet in Hset. rewrite List.Forall_forall in Hset.
  assert (In i roots12) as Hin by (by eapply roots12_In, toSet_range).
  specialize (Hset i Hin). rewrite decide_True in Hset by done.
  specialize (Habs i Hexc). simpl in Habs. congruence.
Qed.

(** C3, as stated, fails in its second half: the exclude set is applied in
    exact mode too.  On a raga whose pattern is {0, 4}, the exact search
    for {4} keeps the raga, and the same search with 4 excluded keeps
    nothing. *)
Lemma C3_exact_search_counterexample :
  toSet [4] ≠ ∅ ∧
  ragaSearch [demoRaga] (exactQuery [4] []) = [enrich demoRaga] ∧
  ragaSearch [demoRaga] (exactQuery [4] [4]) = [] ∧
  ¬ (∀ ragas sel exc,
       toSet sel ≠ ∅ →
       ragaSearch ragas (exactQuery sel exc) = ragaSearch ragas (exactQuery sel [])).
Proof.
  assert (toSet [4] ≠ ∅) as Hne by (apply size_pos_nonempty; vm_compute; lia).
  split; [exact Hne|]. split; [vm_compute; reflexivity|].
  split; [vm_compute; reflexivity|].
  intros Hall. specialize (Hall [demoRaga] [4] [4] Hne).
  vm_compute in Hall. discriminate Hall.
Qed.

(** C3, amended. For every list of ragas with twelve-cell patterns, search
    mode ['exact'] keeps, of the ragas that passed the name and scale
    filters and in their order, exactly those whose relevant pattern equals
    S ∪ {0} as a set whenever the inclusion set S is not empty, and that
    moreover have a 0 at every excluded pitch class: the exclude sets are
    applied in exact mode as well.  In combined mode with S not empty, an
    exclude set that shares no pitch class with S ∪ {0} therefore leaves
    the result as it is without exclusion, and an exclude set that shares
    one empties the result.  In separate mode the ascending and the
    descending pattern are each tested against their own sets. *)
Theorem C3_exact_search_amended (ragas : list Raga) (q : SearchQuery) :
  Forall wellFormed ragas →
  searchMode q = "exact" →
  (separate q = false →
   ragaSearch ragas q =
     filter (exactKeeps notePattern (selectedNotes q) (excludedNotes q))
       (searchInput ragas q) ∧
   (toSet (selectedNotes q) ≠ ∅ →
    ((∀ i, i ∈ toSet (excludedNotes q) → i ∉ toSet (selectedNotes q) ∪ {[0]}) →
     ragaSearch ragas q =
       filter (λ r, patternIsSet (notePattern (raga r))
                      (toSet (selectedNotes q) ∪ {[0]}))
         (searchInput ragas q)) ∧
    ((∃ i, i ∈ toSet (excludedNotes q) ∧ i ∈ toSet (selectedNotes q) ∪ {[0]}) →
     ragaSearch ragas q = [])))
  ∧
  (separate q = true →
   ragaSearch ragas q =
     filter (λ r, exactKeeps aarohPattern (selectedAarohNotes q)
                    (excludedAarohNotes q) r ∧
                  exactKeeps avrohPattern (selectedAvrohNotes q)
                    (excludedAvrohNotes q) r)
       (searchInput ragas q)).
Proof.
  intros Hwf Hmode. rewrite List.Forall_forall in Hwf.
  assert (∀ r, In r (searchInput ragas q) → wellFormed (raga r)) as Hlen
    by (intros r Hr; by apply Hwf, searchInput_In with q).
  assert (ragaSearch ragas q = pitchStage q (searchInput ragas q)) as -> by done.
  unfold pitchStage. rewrite Hmode. split.
  - intros ->.
    assert (excludeStage notePattern (toSet (excludedNotes q))
              (includeStage "exact" notePattern (toSet (selectedNotes q))
                 (searchInput ragas q)) =
            filter (exactKeeps notePattern (selectedNotes q) (excludedNotes q))
              (searchInput ragas q)) as ->.
    { rewrite includeStage_exact
        by (intros r Hr; by destruct (Hlen r Hr) as (? & _ & _)).
      rewrite excludeStage_spec, list_filter_filter.
      apply filter_ext_stdpp. intros r _. unfold exactKeeps. tauto. }
    split; [done|]. intros Hne. split.
    + intros Hdisj. apply filter_ext_stdpp. intros r _.
      by apply exactKeeps_disjoint.
    + intros (i & Hexc & Hsel). apply filter_none_stdpp. intros r _.
      by apply exactKeeps_overlap with i.
  - intros ->. rewrite !excludeStage_spec.
    rewrite (includeStage_exact aarohPattern _ (searchInput ragas q))
      by (intros r Hr; by destruct (Hlen r Hr) as (_ & ? & _)).
    rewrite includeStage_exact
      by (intros r Hr; do 2 apply filter_In_stdpp in Hr;
          by destruct (Hlen r Hr) as (_ & _ & ?)).
    rewrite !list_filter_filter.
    apply filter_ext_stdpp. intros r _. unfold exactKeeps. tauto.
Qed.

Lemma C3_exact_search_amended_witness :
  ragaSearch [demoRaga] (exactQuery [4] [4]) = [] ∧
  ragaSearch [demoRaga] (exactQuery [4] [7]) =
    filter (λ r, patternIsSet (notePattern (raga r)) (toSet [4] ∪ {[0]}))
      (searchInput [demoRaga] (exactQuery [4] [7])).
Proof.
  assert (Forall wellFormed [demoRaga]) as Hwf
    by (constructor; [exact (parseRow_wellFormed _ _ _ _ parseRow_demo) | constructor]).
  assert (toSet [4] ≠ ∅) as Hne by (apply size_pos_nonempty; vm_compute; lia).
  split.
  - destruct (proj1 (C3_exact_search_amended [demoRaga] (exactQuery [4] [4])
                       Hwf eq_refl) eq_refl) as [_ Hexc].
    apply (proj2 (Hexc Hne)). exists 4. split.
    + apply toSet_In. simpl. split; [by left | lia].
    + apply elem_of_union_l, toSet_In. simpl. split; [by left | lia].
  - destruct (proj1 (C3_exact_search_amended [demoRaga] (exactQuery [4] [7])
                       Hwf eq_refl) eq_refl) as [_ Hexc].
    apply (proj1 (Hexc Hne)). intros i Hi.
    apply toSet_In in Hi as [[<- | []] _].
    rewrite elem_of_union, elem_of_singleton, toSet_In. simpl.
    intros [[[H | []] _] | H]; discriminate H.
Defined.

(** * Further properties of the code *)

(** ** Completeness, uniqueness and the effect of the extension *)

Lemma available_keys pattern chordId extend :
  map chordKey (availableChordsForPattern pattern chordId extend) =
  flat_map (λ ct, map (pair ct) (List.filter (accepts pattern extend ct) roots12))
           (selectTypes chordId).
Proof.
  rewrite available_flat_map.
  induction (selectTypes chordId) as [|ct l IH]; [done|].
  cbn [flat_map]. rewrite map_app, IH. f_equal.
  unfold matchesOf. by rewrite map_map.
Qed.

Lemma selectTypes_complete chordId ct :
  In ct chordTypes → (chordId = "all" ∨ chordId = "" ∨ ct_id ct = chordId) →
  In ct (selectTypes chordId).
Proof.
  intros Hct Hid. unfold selectTypes.
  destruct (String.eqb chordId "all" || String.eqb chordId "") eqn:Hall; [done|].
  apply orb_false_iff in Hall as [Hall Hemp].
  apply String.eqb_neq in Hall, Hemp.
  destruct Hid as [? | [? | Hid]]; try done.
  apply filter_In. split; [done | by apply String.eqb_eq].
Qed.

Lemma accepts_intro pattern extend ct r :
  In ct chordTypes → 0 ≤ r →
  present pattern r →
  (∀ i, In i (getExtendedIntervals (ct_intervals ct) extend) →
        present pattern ((r + i) `mod` 12)) →
  accepts pattern extend ct r = true.
Proof.
  intros Hct Hr Hroot Hnotes. unfold accepts. apply andb_true_iff. split; [done|].
  rewrite catalog_notes_mod by done. apply forallb_forall.
  intros n Hn. apply in_map_iff in Hn as (i & <- & Hi). by apply Hnotes.
Qed.

(** X1. Completeness and uniqueness of the chord matcher: a catalog
    template that passes the filter, at a root of 0..11 that is present
    and whose transposed (possibly extended) notes are all present, is
    emitted; no (template, root) pair is emitted twice; and an emitted
    chord is determined by its template and root. *)
Theorem matcher_complete_once (pattern : list Z) (chordId : string) (extend : bool) :
  (∀ ct r,
     In ct chordTypes →
     (chordId = "all" ∨ chordId = "" ∨ ct_id ct = chordId) →
     0 ≤ r ≤ 11 →
     present pattern r →
     (∀ i, In i (getExtendedIntervals (ct_intervals ct) extend) →
           present pattern ((r + i) `mod` 12)) →
     In (chordAt extend ct r) (availableChordsForPattern pattern chordId extend))
  ∧ NoDup (map chordKey (availableChordsForPattern pattern chordId extend))
  ∧ (∀ m, In m (availableChordsForPattern pattern chordId extend) →
          m = chordAt extend (type m) (root m)).
Proof.
  split; [|split].
  - intros ct r Hct Hid Hr Hroot Hnotes. apply available_In.
    exists ct, r. repeat split.
    + by apply selectTypes_complete.
    + by apply roots12_In.
    + apply accepts_intro; [done | lia | done | done].
  - apply sublist_NoDup with (list_prod chordTypes roots12).
    + apply catalog_product_NoDup.
    + apply available_keys_sublist.
  - intros m Hm. by apply available_In in Hm as (ct & r & _ & _ & _ & ->).
Qed.

Lemma matcher_complete_once_witness :
  In (chordAt false majorType 0) (availableChordsForPattern pentatonic "" false).
Proof.
  apply (proj1 (matcher_complete_once pentatonic "" false) majorType 0).
  - simpl. auto.
  - auto.
  - lia.
  - vm_compute. reflexivity.
  - intros i Hi. vm_compute in Hi.
    destruct Hi as [<- | [<- | [<- | []]]]; vm_compute; reflexivity.
Defined.

Lemma getExtendedIntervals_app (B : list Z) extend :
  ∃ added, getExtendedIntervals B extend = B ++ added ∧ (length added ≤ 1)%nat.
Proof.
  unfold getExtendedIntervals. destruct (negb extend || _).
  - exists []. rewrite app_nil_r. split; [done | simpl; lia].
  - destruct B as [|x rest].
    + exists []. split; [done | simpl; lia].
    + eexists. split; [reflexivity | simpl; lia].
Qed.

Lemma accepts_extend_base pattern ct r :
  accepts pattern true ct r = true → accepts pattern false ct r = true.
Proof.
  unfold accepts. rewrite !andb_true_iff. intros [Hroot Hnotes]. split; [done|].
  destruct (getExtendedIntervals_app (ct_intervals ct) true) as (added & Heq & _).
  rewrite Heq, map_app, forallb_app in Hnotes.
  by apply andb_true_iff in Hnotes as [Hbase _].
Qed.

Lemma sublist_filter_impl {A} (f g : A → bool) (l : list A) :
  (∀ x, f x = true → g x = true) →
  sublist (List.filter f l) (List.filter g l).
Proof.
  intros Hfg. induction l as [|x l IH]; simpl; [constructor|].
  destruct (f x) eqn:Hf.
  - rewrite (Hfg x Hf). by constructor.
  - destruct (g x); [by constructor | done].
Qed.

(** X2. The extension can only remove chords: for every pattern and
    filter, the (template, root) pairs emitted with [extend = true] are a
    subsequence of those emitted with [extend = false], so there are never
    more extended chords than plain ones. *)
Theorem extension_only_removes (pattern : list Z) (chordId : string) :
  sublist (map chordKey (availableChordsForPattern pattern chordId true))
          (map chordKey (availableChordsForPattern pattern chordId false))
  ∧ (length (availableChordsForPattern pattern chordId true)
     ≤ length (availableChordsForPattern pattern chordId false))%nat.
Proof.
  assert (sublist (map chordKey (availableChordsForPattern pattern chordId true))
            (map chordKey (availableChordsForPattern pattern chordId false))) as Hsub.
  { rewrite !available_keys. apply sublist_flat_map; [|done].
    intros ct. apply sublist_map, sublist_filter_impl.
    intros r. apply accepts_extend_base. }
  split; [done|]. apply sublist_length in Hsub. by rewrite !length_map in Hsub.
Qed.

Lemma catalog_three_intervals ct :
  In ct chordTypes → (3 ≤ length (ct_intervals ct))%nat.
Proof.
  intros Hct.
  assert (forallb (λ ct, (3 <=? length (ct_intervals ct))%nat) chordTypes = true)
    as Hall by (vm_compute; reflexivity).
  rewrite forallb_forall in Hall. by apply Nat.leb_le, Hall.
Qed.

Lemma getExtendedIntervals_length (B : list Z) extend :
  (3 ≤ length B)%nat →
  length (getExtendedIntervals B extend) =
  (length B + if extend then 1 else 0)%nat.
Proof.
  intros Hlen. unfold getExtendedIntervals.
  assert ((length B <? 3)%nat = false) as -> by (apply Nat.ltb_ge; lia).
  destruct extend; cbn [negb orb]; [|lia].
  destruct B; [simpl in Hlen; lia|]. by rewrite length_app.
Qed.

(** X3. On the catalog the flag decides [isExtended]: every template has at
    least three intervals, so every chord emitted with [extend = true] has
    [isExtended] true and one note more than its template has intervals,
    and every chord emitted with [extend = false] has [isExtended] false
    and as many notes as its template has intervals. *)
Theorem isExtended_follows_flag (pattern : list Z) (chordId : string)
    (extend : bool) (m : Chord) :
  In m (availableChordsForPattern pattern chordId extend) →
  isExtended m = extend ∧
  length (notes m) =
    (length (ct_intervals (type m)) + if extend then 1 else 0)%nat.
Proof.
  intros Hm. apply available_In in Hm as (ct & r & Hct & _ & _ & ->).
  apply selectTypes_In in Hct as [Hct _].
  pose proof (catalog_three_intervals ct Hct) as Hlen.
  cbn [chordAt isExtended notes type].
  rewrite length_map, getExtendedIntervals_length by done. split; [|done].
  destruct extend; [|done]. cbn [andb]. apply Nat.ltb_lt. lia.
Qed.

Lemma isExtended_follows_flag_witness :
  isExtended (chordAt true dim7Type 0) = true ∧
  length (notes (chordAt true dim7Type 0)) =
    (length (ct_intervals (type (chordAt true dim7Type 0))) + 1)%nat.
Proof.
  apply (isExtended_follows_flag dim7Pattern "dim7" true (chordAt true dim7Type 0)).
  vm_compute. left. reflexivity.
Defined.

(** ** Aggregates by flag and by mode *)

Lemma List_filter_const {A} (f : A → bool) (b : bool) (l : list A) :
  (∀ x, In x l → f x = b) → List.filter f l = if b then l else [].
Proof.
  induction l as [|x l IH]; intros Hall; [by destruct b|].
  cbn [List.filter]. rewrite (Hall x) by (by left).
  rewrite IH by (intros; apply Hall; by right). by destruct b.
Qed.

Lemma emitted_isExtended pattern chordId extend m :
  In m (availableChordsForPattern pattern chordId extend) → isExtended m = extend.
Proof.
  intros Hm. apply available_In in Hm as (ct & r & Hct & _ & _ & ->).
  apply selectTypes_In in Hct as [Hct _].
  pose proof (catalog_three_intervals ct Hct) as Hlen.
  cbn [chordAt isExtended]. rewrite getExtendedIntervals_length by done.
  destruct extend; [|done]. cbn [andb]. apply Nat.ltb_lt. lia.
Qed.

Lemma available_extended_count pattern extend :
  length (List.filter (λ c, isExtended c)
            (availableChordsForPattern pattern "all" extend)) =
    (if extend then length (availableChordsForPattern pattern "all" extend) else 0%nat)
  ∧
  length (List.filter (λ c, negb (isExtended c))
            (availableChordsForPattern pattern "all" extend)) =
    (if extend then 0%nat else length (availableChordsForPattern pattern "all" extend)).
Proof.
  split.
  - rewrite (List_filter_const _ extend); [by destruct extend|].
    intros m Hm. by apply emitted_isExtended in Hm as ->.
  - rewrite (List_filter_const _ (negb extend)); [by destruct extend|].
    intros m Hm. by apply emitted_isExtended in Hm as ->.
Qed.

(** X4. Aggregates: with [extend] false all chords are counted in [basic]
    and [extended] is 0; with [extend] true all chords are counted in
    [extended] and [basic] is 0.  The total is the number of chords of the
    combined pattern in combined mode, and the number of chords of the
    ascending pattern plus the number of chords of the descending pattern
    in separate mode (a chord found in both directions counts twice). *)
Theorem aggregates_by_flag_and_mode (r : Raga) (separateBool extendBool : bool) :
  let count := λ pattern,
    length (availableChordsForPattern pattern "all" extendBool) in
  let total := if separateBool
               then (count (aarohPattern r) + count (avrohPattern r))%nat
               else count (notePattern r) in
  aggregates r separateBool extendBool =
    if extendBool then mkAggregates 0 total else mkAggregates total 0.
Proof.
  intros count total. unfold aggregates, total, count.
  destruct separateBool; cbn [fold_left];
    rewrite !fold_aggregatesStep by done; cbn [basic extended ragaPattern];
    rewrite <- !available_all.
  - destruct (available_extended_count (aarohPattern r) extendBool) as [-> ->].
    destruct (available_extended_count (avrohPattern r) extendBool) as [-> ->].
    destruct extendBool; f_equal; lia.
  - destruct (available_extended_count (notePattern r) extendBool) as [-> ->].
    destruct extendBool; f_equal; lia.
Qed.

(** ** Edge cases of the matcher *)

Lemma list_nil_no_In {A} (l : list A) : (∀ x, ¬ In x l) → l = [].
Proof. destruct l as [|x l]; [done|]. intros H. destruct (H x). by left. Qed.

(** X5. When the matcher returns nothing, and an alias of the filter: a
    chord id that is neither ['all'], nor empty, nor the id of a catalog
    template selects no template, so no chord is returned whatever the
    pattern; a pattern without any truthy cell among its first twelve (the
    empty array, all zeros) gives no chord whatever the filter; and the
    empty chord id selects the whole catalog, as ['all'] does. *)
Theorem matcher_empty_results (pattern : list Z) (chordId : string) (extend : bool) :
  (chordId ≠ "all" → chordId ≠ "" →
   (∀ ct, In ct chordTypes → ct_id ct ≠ chordId) →
   availableChordsForPattern pattern chordId extend = []) ∧
  ((∀ r, 0 ≤ r ≤ 11 → truthy (js_index pattern r) = false) →
   availableChordsForPattern pattern chordId extend = []) ∧
  availableChordsForPattern pattern "" extend =
    availableChordsForPattern pattern "all" extend.
Proof.
  split; [|split].
  - intros Hall Hemp Hids. apply list_nil_no_In. intros m Hm.
    apply available_In in Hm as (ct & r & Hct & _).
    apply selectTypes_In in Hct as [Hct [? | [? | Hid]]]; try done.
    by apply (Hids ct).
  - intros Hnone. apply list_nil_no_In. intros m Hm.
    apply available_In in Hm as (ct & r & _ & Hr & Hacc & _).
    apply roots12_In in Hr. apply accepts_present in Hacc as [Hroot _].
    unfold present in Hroot. rewrite Hnone in Hroot by done. discriminate.
  - by rewrite !available_flat_map.
Qed.

Lemma matcher_empty_results_witness :
  availableChordsForPattern pentatonic "power" true = [] ∧
  availableChordsForPattern [] "all" false = [].
Proof.
  split.
  - apply (proj1 (matcher_empty_results pentatonic "power" true)); try discriminate.
    intros ct Hct. vm_compute in Hct.
    repeat (destruct Hct as [<- | Hct]; [discriminate|]). destruct Hct.
  - apply (proj1 (proj2 (matcher_empty_results [] "all" false))).
    intros r Hr. unfold js_index. by destruct (decide (0 ≤ r)).
Defined.

Lemma List_filter_all {A} (f : A → bool) (l : list A) :
  (∀ x, In x l → f x = true) → List.filter f l = l.
Proof. intros H. by rewrite (List_filter_const f true). Qed.

Lemma flat_map_length_const {A B} (f : A → list B) (n : nat) (l : list A) :
  (∀ x, In x l → length (f x) = n) → length (flat_map f l) = (n * length l)%nat.
Proof.
  induction l as [|x l IH]; intros Hall; cbn [flat_map length]; [lia|].
  rewrite length_app, IH, (Hall x) by (intros; apply Hall; by right) || (by left).
  lia.
Qed.

Lemma fullPattern_accepts pattern extend ct r :
  fullPattern pattern → In ct chordTypes → In r roots12 →
  accepts pattern extend ct r = true.
Proof.
  intros Hfull Hct Hr. unfold fullPattern in Hfull.
  rewrite List.Forall_forall in Hfull.
  apply accepts_intro; [done | by apply roots12_In in Hr; lia | by apply Hfull |].
  intros i _. apply Hfull, roots12_In.
  pose proof (Z.mod_pos_bound (r + i) 12 ltac:(lia)). lia.
Qed.

(** X6. A pattern with all twelve pitch classes present accepts every
    template at every root: restricted to one catalog template the
    matcher returns the twelve chords of roots 0 to 11 in order, and
    unrestricted it returns 156 chords (13 templates by 12 roots), with or
    without extension. *)
Theorem matcher_full_pattern (pattern : list Z) (extend : bool) :
  fullPattern pattern →
  (∀ ct, In ct chordTypes →
     availableChordsForPattern pattern (ct_id ct) extend =
       map (chordAt extend ct) roots12) ∧
  length (availableChordsForPattern pattern "all" extend) = 156%nat.
Proof.
  intros Hfull.
  assert (∀ ct, In ct chordTypes →
            matchesOf pattern extend ct = map (chordAt extend ct) roots12) as Hone.
  { intros ct Hct. unfold matchesOf. f_equal. apply List_filter_all.
    intros r Hr. by apply fullPattern_accepts. }
  split.
  - intros ct Hct. rewrite available_one_template by done. by apply Hone.
  - rewrite available_all, (flat_map_length_const _ 12); [done|].
    intros ct Hct. by rewrite Hone.
Qed.

Lemma matcher_full_pattern_witness :
  length (availableChordsForPattern [1; 1; 1; 1; 1; 1; 1; 1; 1; 1; 1; 1] "all" true)
  = 156%nat.
Proof.
  apply (matcher_full_pattern [1; 1; 1; 1; 1; 1; 1; 1; 1; 1; 1; 1] true).
  unfold fullPattern. repeat constructor.
Defined.

(** ** The custom matcher against the chord matcher *)

Lemma findMatches_filter pcs pattern :
  findMatches pcs pattern =
  map (customAt pcs) (List.filter (customAccepts pcs pattern) roots12).
Proof. unfold findMatches. by rewrite fold_findMatchesStep. Qed.

Lemma catalog_has_root_offset ct : In ct chordTypes → In 0 (ct_intervals ct).
Proof.
  intros Hct.
  assert (forallb (λ ct, existsb (Z.eqb 0) (ct_intervals ct)) chordTypes = true)
    as Hall by (vm_compute; reflexivity).
  rewrite forallb_forall in Hall. specialize (Hall ct Hct).
  apply existsb_exists in Hall as (x & Hx & Heq). apply Z.eqb_eq in Heq. by subst.
Qed.

Lemma catalog_base_range ct i :
  In ct chordTypes → In i (ct_intervals ct) → 0 ≤ i ≤ 11.
Proof. intros Hct Hi. by apply (catalog_offsets_range ct false i). Qed.

Lemma normalizeIntervals_catalog ct :
  In ct chordTypes →
  normalizeIntervals (map JNum (ct_intervals ct)) = map Some (ct_intervals ct).
Proof.
  intros Hct. rewrite normalizeIntervals_mod. apply map_ext_in.
  intros v Hv. f_equal. apply Z.mod_small.
  pose proof (catalog_base_range ct v Hct Hv). lia.
Qed.

Lemma custom_notes_Some (l : list Z) r :
  map (λ iv : option Z, (λ x, js_rem (r + x) 12) <$> iv) (map Some l) =
  map Some (map (λ x, js_rem (r + x) 12) l).
Proof. by rewrite !map_map. Qed.

Lemma forallb_map_Some pattern (l : list Z) :
  forallb (λ i, truthy (js_index_num pattern i)) (map Some l) =
  forallb (λ n, truthy (js_index pattern n)) l.
Proof. induction l as [|x l IH]; [done|]. cbn [map forallb]. by rewrite IH. Qed.

Lemma customAccepts_catalog pattern ct r :
  In ct chordTypes → 0 ≤ r ≤ 11 →
  customAccepts (map Some (ct_intervals ct)) pattern r = accepts pattern false ct r.
Proof.
  intros Hct Hr. unfold customAccepts, accepts.
  rewrite custom_notes_Some, forallb_map_Some.
  replace (getExtendedIntervals (ct_intervals ct) false) with (ct_intervals ct)
    by done.
  destruct (forallb _ _) eqn:Hall; [|by rewrite andb_false_r].
  rewrite andb_true_r. symmetry. rewrite forallb_forall in Hall.
  assert (js_rem (r + 0) 12 = r) as Hr0
    by (rewrite Z.add_0_r, js_rem_mod by lia; apply Z.mod_small; lia).
  rewrite <- Hr0. apply Hall, in_map_iff. exists 0. split; [done|].
  by apply catalog_has_root_offset.
Qed.

(** X7. The custom matcher subsumes the chord matcher: given the intervals
    of a catalog template, the custom matcher finds, for every pattern,
    the same roots with the same names and the same notes, in the same
    order, as the chord matcher restricted to that template without
    extension.  (Every template contains the offset 0, so the root test
    of the chord matcher is implied by its note test.) *)
Theorem custom_agrees_with_catalog (pattern : list Z) (ct : ChordType) :
  In ct chordTypes →
  map (λ c, (cm_root c, cm_rootName c, cm_notes c))
      (findMatches (normalizeIntervals (map JNum (ct_intervals ct))) pattern) =
  map (λ m, (root m, rootName m, map Some (notes m)))
      (availableChordsForPattern pattern (ct_id ct) false).
Proof.
  intros Hct. rewrite available_one_template, normalizeIntervals_catalog by done.
  unfold matchesOf. rewrite findMatches_filter, !map_map.
  rewrite (filter_ext_in (customAccepts (map Some (ct_intervals ct)) pattern)
             (accepts pattern false ct)).
  - apply map_ext. intros r. cbn [customAt chordAt cm_root cm_rootName cm_notes
                                  root rootName notes].
    by rewrite custom_notes_Some.
  - intros r Hr. apply customAccepts_catalog; [done | by apply roots12_In].
Qed.

Lemma custom_agrees_with_catalog_witness :
  map (λ c, (cm_root c, cm_rootName c, cm_notes c))
      (findMatches (normalizeIntervals (map JNum (ct_intervals majorType))) pentatonic) =
  map (λ m, (root m, rootName m, map Some (notes m)))
      (availableChordsForPattern pentatonic (ct_id majorType) false).
Proof.
  apply (custom_agrees_with_catalog pentatonic majorType). simpl. auto.
Defined.

(** X8. Octave equivalence of custom intervals: two interval lists that
    agree position by position modulo 12 (for instance 12 for 0, or -8
    for 4) give the same matches, roots and notes alike, on every
    pattern. *)
Theorem custom_octave_equivalence (l l' : list Z) (pattern : list Z) :
  Forall2 (λ v v', v `mod` 12 = v' `mod` 12) l l' →
  findMatches (normalizeIntervals (map JNum l)) pattern =
  findMatches (normalizeIntervals (map JNum l')) pattern.
Proof.
  intros Hmod. rewrite !normalizeIntervals_mod. f_equal.
  induction Hmod as [|v v' l l' Hv _ IH]; [done|].
  cbn [map]. by rewrite Hv, IH.
Qed.

Lemma custom_octave_equivalence_witness :
  findMatches (normalizeIntervals (map JNum [0; 4; 7; 12])) triadPattern =
  findMatches (normalizeIntervals (map JNum [12; -8; 19; 0])) triadPattern.
Proof.
  apply (custom_octave_equivalence [0; 4; 7; 12] [12; -8; 19; 0] triadPattern).
  repeat constructor.
Defined.

(** X9. One element that is not numeric silences the custom matcher: if
    the array holds a value that [%] turns into [NaN], no root matches on
    any pattern, and the route answers a known raga with three empty
    lists (not with an error). *)
Theorem custom_nan_matches_nothing (elems : list JsElem) :
  In JNaN elems →
  (∀ pattern, findMatches (normalizeIntervals elems) pattern = []) ∧
  (∀ r, Express.customMatches (JArray elems) (Some r) = Ok (mkCustomMatches [] [] [])).
Proof.
  intros Hnan.
  assert (∀ pattern, findMatches (normalizeIntervals elems) pattern = []) as Hnone.
  { intros pattern. apply list_nil_no_In. intros m Hm.
    apply findMatches_In in Hm as (r & _ & Hacc & _).
    unfold customAccepts in Hacc. rewrite forallb_forall in Hacc.
    specialize (Hacc None). cbn in Hacc. enough (false = true) by done.
    apply Hacc, in_map_iff. exists None. split; [done|].
    apply in_map_iff. by exists JNaN. }
  split; [done|]. intros r. destruct elems as [|e elems]; [done|].
  cbn [Express.customMatches length Nat.eqb]. unfold customMatchesBody.
  by rewrite !Hnone.
Qed.

Lemma custom_nan_matches_nothing_witness :
  findMatches (normalizeIntervals [JNum 0; JNaN]) triadPattern = [].
Proof.
  apply (proj1 (custom_nan_matches_nothing [JNum 0; JNaN] ltac:(simpl; auto))).
Defined.

(** X10. Error precedence of the custom-matches route in the two
    deployments: for an unknown raga the Express route answers a rejected
    interval list with 400 and an accepted one with 404, while the
    serverless handler answers 404 whatever the list and the method; for
    a known raga the serverless handler answers any method other than
    POST with 405, whatever the list. *)
Theorem custom_route_error_precedence :
  (∀ f, rejectedInput f →
     Express.customMatches f None = Error 400 "intervalsAbs required") ∧
  (∀ f, ¬ rejectedInput f → Express.customMatches f None = Error 404 "Not found") ∧
  (∀ method f, Netlify.customMatches method f None = Error 404 "Not found") ∧
  (∀ method f r, method ≠ "POST" →
     Netlify.customMatches method f (Some r) = Error 405 "Method not allowed").
Proof.
  split; [|split; [|split]].
  - intros f [-> | [-> | ->]]; reflexivity.
  - intros f Hrej. unfold rejectedInput in Hrej.
    destruct f as [| |[|e elems]]; tauto || reflexivity.
  - reflexivity.
  - intros method f r Hne. unfold Netlify.customMatches.
    apply String.eqb_neq in Hne. by rewrite Hne.
Qed.

Lemma custom_route_error_precedence_witness :
  Express.customMatches (JArray []) None = Error 400 "intervalsAbs required" ∧
  Express.customMatches (JArray [JNum 4]) None = Error 404 "Not found" ∧
  Netlify.customMatches "GET" (JArray [JNum 4]) (Some triadRaga) =
    Error 405 "Method not allowed".
Proof.
  destruct custom_route_error_precedence as (H400 & H404 & _ & H405).
  split; [|split].
  - apply H400. right. right. reflexivity.
  - apply H404. intros [H | [H | H]]; discriminate H.
  - apply H405. discriminate.
Defined.

(** ** Filtering and naming compose *)

Lemma List_filter_map {A B} (f : A → B) (g : B → bool) (l : list A) :
  List.filter g (map f l) = map f (List.filter (λ x, g (f x)) l).
Proof.
  induction l as [|x l IH]; [done|]. cbn [map List.filter].
  destruct (g (f x)); cbn [map]; by rewrite IH.
Qed.

Lemma attach_filter_commute chords sel mode t :
  attachWesternNames (filterChordsByNote chords (Some sel) mode) (Some t) =
  filterChordsByNote (attachWesternNames chords (Some t)) (Some sel) mode.
Proof.
  unfold filterChordsByNote, attachWesternNames.
  destruct (bool_decide (mode = Some "any")); by rewrite List_filter_map.
Qed.

(** X11. Filtering by note and attaching western names commute: the chords
    route filters first and names afterwards, and naming first and
    filtering afterwards gives the same list, for every chord list,
    selected note, mode and tonic. *)
Theorem filter_and_names_commute (chords : list Chord) (selectedNote : option Z)
    (mode : option string) (tonicIndex : option JsNumber) :
  attachWesternNames (filterChordsByNote chords selectedNote mode) tonicIndex =
  filterChordsByNote (attachWesternNames chords tonicIndex) selectedNote mode.
Proof.
  destruct tonicIndex as [t|]; [|done].
  destruct selectedNote as [sel|]; [|done].
  unfold filterChordsByNote, attachWesternNames.
  destruct (bool_decide (mode = Some "any")); by rewrite List_filter_map.
Qed.

(** X12. Attaching western names changes nothing but the name: the list
    keeps its length and every chord keeps its root, root name, notes,
    template and [isExtended]; attaching a second time replaces the
    names by those of the second tonic, so the result depends on the last
    tonic only. *)
Theorem names_only_add_a_name (chords : list Chord) (tonicIndex : option JsNumber) :
  map (λ c, (root c, rootName c, notes c, type c, isExtended c))
      (attachWesternNames chords tonicIndex) =
  map (λ c, (root c, rootName c, notes c, type c, isExtended c)) chords
  ∧ length (attachWesternNames chords tonicIndex) = length chords
  ∧ (∀ t2, attachWesternNames (attachWesternNames chords tonicIndex) (Some t2) =
           attachWesternNames chords (Some t2))
  ∧ (∀ t c, tonicIndex = Some t → In c (attachWesternNames chords tonicIndex) →
            westernName c ≠ None).
Proof.
  destruct tonicIndex as [t|]; cbn [attachWesternNames].
  - rewrite map_map, length_map. repeat split; try done.
    + intros t2. by rewrite map_map.
    + intros t' c _ Hc. apply in_map_iff in Hc as (c0 & <- & _). done.
  - repeat split; try done.
Qed.

Lemma names_only_add_a_name_witness :
  westernName (withWesternName (chordAt false majorType 0)
                 "C: C - E - G") ≠ None.
Proof.
  apply (proj2 (proj2 (proj2 (names_only_add_a_name [chordAt false majorType 0]
                                (Some (NInt 0))))) (NInt 0)); [reflexivity|].
  vm_compute. left. reflexivity.
Defined.

Lemma List_filter_idem {A} (f : A → bool) (l : list A) :
  List.filter f (List.filter f l) = List.filter f l.
Proof.
  apply List_filter_all. intros x Hx. by apply filter_In in Hx as [_ ?].
Qed.

Lemma emitted_root_in_notes pattern chordId extend m :
  In m (availableChordsForPattern pattern chordId extend) → In (root m) (notes m).
Proof.
  intros Hm. apply available_In in Hm as (ct & r & Hct & Hr & _ & ->).
  apply selectTypes_In in Hct as [Hct _]. apply roots12_In in Hr.
  cbn [chordAt root notes]. apply in_map_iff. exists 0. split.
  - rewrite Z.add_0_r, js_rem_mod by lia. apply Z.mod_small. lia.
  - destruct (getExtendedIntervals_app (ct_intervals ct) extend) as (added & -> & _).
    apply in_or_app. left. by apply catalog_has_root_offset.
Qed.

(** X13. Filtering by note keeps a subsequence of the chords and is
    idempotent, for every selected note and mode; and on the chords that
    the matcher emits (named or not), whatever mode ['root'] keeps for a
    note, mode ['any'] keeps too, because the root of an emitted chord is
    one of its notes. *)
Theorem filter_by_note_laws (chords : list Chord) (selectedNote : option Z)
    (mode : option string) :
  sublist (filterChordsByNote chords selectedNote mode) chords ∧
  filterChordsByNote (filterChordsByNote chords selectedNote mode) selectedNote mode
    = filterChordsByNote chords selectedNote mode ∧
  (∀ pattern chordId extend tonicIndex sel,
     chords = attachWesternNames
                (availableChordsForPattern pattern chordId extend) tonicIndex →
     sublist (filterChordsByNote chords (Some sel) (Some "root"))
             (filterChordsByNote chords (Some sel) (Some "any"))).
Proof.
  split; [|split].
  - unfold filterChordsByNote. destruct selectedNote; [|done].
    destruct (bool_decide _); apply sublist_List_filter.
  - unfold filterChordsByNote. destruct selectedNote; [|done].
    destruct (bool_decide _); apply List_filter_idem.
  - intros pattern chordId extend tonicIndex sel ->.
    assert (∀ l m, attachWesternNames (filterChordsByNote l (Some sel) m) tonicIndex =
                   filterChordsByNote (attachWesternNames l tonicIndex) (Some sel) m)
      as Hcomm by (intros l m; destruct tonicIndex; [apply attach_filter_commute | done]).
    rewrite <- !Hcomm.
    assert (sublist
              (filterChordsByNote (availableChordsForPattern pattern chordId extend)
                 (Some sel) (Some "root"))
              (filterChordsByNote (availableChordsForPattern pattern chordId extend)
                 (Some sel) (Some "any"))) as Hsub.
    { unfold filterChordsByNote. cbn [bool_decide decide_rel].
      rewrite bool_decide_eq_false_2, bool_decide_eq_true_2 by done.
      set (l := availableChordsForPattern pattern chordId extend).
      assert (∀ m, In m l → In (root m) (notes m)) as Hroot
        by (intros m Hm; by eapply emitted_root_in_notes).
      clearbody l. induction l as [|m l IH]; [constructor|].
      cbn [List.filter]. destruct (root m =? sel) eqn:Heq.
      - apply Z.eqb_eq in Heq.
        assert (existsb (Z.eqb sel) (notes m) = true) as ->.
        { apply existsb_eqb_In, list_elem_of_In. rewrite <- Heq.
          apply Hroot. by left. }
        constructor. apply IH. intros; apply Hroot; by right.
      - destruct (existsb _ _); [constructor|];
          apply IH; intros; apply Hroot; by right. }
    destruct tonicIndex; [|done]. cbn [attachWesternNames].
    by apply sublist_map.
Qed.

Lemma filter_by_note_laws_witness :
  sublist
    (filterChordsByNote (availableChordsForPattern pentatonic "all" false)
       (Some 0) (Some "root"))
    (filterChordsByNote (availableChordsForPattern pentatonic "all" false)
       (Some 0) (Some "any")).
Proof.
  apply (proj2 (proj2 (filter_by_note_laws
                         (availableChordsForPattern pentatonic "all" false)
                         None None)) pentatonic "all" false None 0).
  reflexivity.
Defined.

(** ** Counting swaras *)

Lemma countSwaras_fold pattern :
  countSwaras pattern = fold_left (swaraStep pattern) swaraGroups 0.
Proof. reflexivity. Qed.

Lemma swaraStep_fold_bounds pattern groups : ∀ acc,
  acc ≤ fold_left (swaraStep pattern) groups acc ≤ acc + Z.of_nat (length groups).
Proof.
  induction groups as [|g groups IH]; intros acc; cbn [fold_left length]; [lia|].
  specialize (IH (swaraStep pattern acc g)). unfold swaraStep in *.
  destruct (existsb _ g); lia.
Qed.

Lemma swaraStep_fold_mono p q groups : ∀ a b,
  patternIncluded p q → a ≤ b →
  Forall (Forall (λ i, 0 ≤ i ≤ 11)) groups →
  fold_left (swaraStep p) groups a ≤ fold_left (swaraStep q) groups b.
Proof.
  induction groups as [|g groups IH]; intros a b Hinc Hab Hrange;
    cbn [fold_left]; [done|].
  inversion Hrange as [|? ? Hg Hrest]; subst.
  apply IH; [done | | done]. unfold swaraStep.
  destruct (existsb (λ idx, bool_decide (js_index p idx = Some 1)) g) eqn:Hp.
  - assert (existsb (λ idx, bool_decide (js_index q idx = Some 1)) g = true) as ->.
    { apply existsb_exists in Hp as (i & Hi & Hone).
      apply existsb_exists. exists i. split; [done|].
      apply bool_decide_eq_true_1 in Hone. apply bool_decide_eq_true_2.
      rewrite List.Forall_forall in Hg. by apply Hinc; [apply Hg|]. }
    lia.
  - destruct (existsb (λ idx, bool_decide (js_index q idx = Some 1)) g); lia.
Qed.

Lemma swaraGroups_range : Forall (Forall (λ i, 0 ≤ i ≤ 11)) swaraGroups.
Proof. unfold swaraGroups. repeat constructor; lia. Qed.

(** X14. The swara count: for every pattern [countSwaras] lies between 0
    and 7; it is at least 1 when the tonic cell is 1, and 0 when no cell
    of 0..11 is 1; and it is monotone: a pattern whose 1-cells are all
    1-cells of another pattern has at most the other's count. *)
Theorem countSwaras_bounds (pattern : list Z) :
  0 ≤ countSwaras pattern ≤ 7 ∧
  (js_index pattern 0 = Some 1 → 1 ≤ countSwaras pattern) ∧
  ((∀ i, 0 ≤ i ≤ 11 → js_index pattern i ≠ Some 1) → countSwaras pattern = 0) ∧
  (∀ other, patternIncluded pattern other →
            countSwaras pattern ≤ countSwaras other).
Proof.
  split; [|split; [|split]].
  - rewrite countSwaras_fold.
    pose proof (swaraStep_fold_bounds pattern swaraGroups 0) as H.
    simpl length in H. lia.
  - intros Htonic. rewrite countSwaras_fold.
    change (fold_left (swaraStep pattern) swaraGroups 0)
      with (fold_left (swaraStep pattern) (tl swaraGroups) (swaraStep pattern 0 [0])).
    assert (swaraStep pattern 0 [0] = 1) as ->.
    { unfold swaraStep. cbn [existsb]. by rewrite bool_decide_eq_true_2. }
    pose proof (swaraStep_fold_bounds pattern (tl swaraGroups) 1) as H. lia.
  - intros Hnone.
    assert (patternIncluded pattern []) as Hinc
      by (intros i Hi Hone; by destruct (Hnone i Hi)).
    pose proof (swaraStep_fold_mono pattern [] swaraGroups 0 0 Hinc
                  ltac:(lia) swaraGroups_range) as Hle.
    rewrite <- !countSwaras_fold in Hle.
    assert (countSwaras [] = 0) as Hzero by (vm_compute; reflexivity).
    pose proof (swaraStep_fold_bounds pattern swaraGroups 0) as Hlow.
    rewrite <- countSwaras_fold in Hlow. lia.
  - intros other Hinc. rewrite !countSwaras_fold.
    apply swaraStep_fold_mono; [done | lia | apply swaraGroups_range].
Qed.

Lemma countSwaras_bounds_witness :
  1 ≤ countSwaras pentatonic ∧ countSwaras triadPattern ≤ countSwaras pentatonic.
Proof.
  destruct (countSwaras_bounds pentatonic) as (_ & Htonic & _ & _).
  destruct (countSwaras_bounds triadPattern) as (_ & _ & _ & Hmono).
  split.
  - apply Htonic. reflexivity.
  - apply Hmono. intros i Hi.
    assert (i = 0 ∨ i = 1 ∨ i = 2 ∨ i = 3 ∨ i = 4 ∨ i = 5 ∨ i = 6 ∨ i = 7 ∨
            i = 8 ∨ i = 9 ∨ i = 10 ∨ i = 11) as Hcases by lia.
    repeat (destruct Hcases as [-> | Hcases]; [vm_compute; congruence|]).
    subst. vm_compute. congruence.
Defined.

(** ** Reading patterns from the CSV *)

Lemma In_rev_app c (s1 s2 : string) :
  In c (list_ascii_of_string (String.rev_app s1 s2)) ↔
  In c (list_ascii_of_string s1) ∨ In c (list_ascii_of_string s2).
Proof.
  revert s2. induction s1 as [|a s1 IH]; intros s2; cbn [String.rev_app].
  - simpl. tauto.
  - rewrite IH. simpl. tauto.
Qed.

Lemma In_rev c (s : string) :
  In c (list_ascii_of_string (String.rev s)) ↔ In c (list_ascii_of_string s).
Proof. unfold String.rev. rewrite In_rev_app. simpl. tauto. Qed.

Lemma In_trimStart c (s : string) :
  isSpace c = false →
  In c (list_ascii_of_string (trimStart s)) ↔ In c (list_ascii_of_string s).
Proof.
  intros Hc. induction s as [|a s IH]; [done|]. cbn [trimStart].
  destruct (isSpace a) eqn:Ha; [|done].
  rewrite IH. simpl. split; [tauto|]. intros [-> | H]; [congruence | done].
Qed.

Lemma In_trim c (s : string) :
  isSpace c = false →
  In c (list_ascii_of_string (trim s)) ↔ In c (list_ascii_of_string s).
Proof.
  intros Hc. unfold trim.
  by rewrite In_rev, In_trimStart, In_rev, In_trimStart.
Qed.

Lemma In_splitOn sep c (s : string) : ∀ cur,
  c ≠ sep →
  (∃ tok, In tok (splitOn sep s cur) ∧ In c (list_ascii_of_string tok)) ↔
  In c (list_ascii_of_string s) ∨ In c (list_ascii_of_string cur).
Proof.
  induction s as [|a s IH]; intros cur Hc; cbn [splitOn].
  - split.
    + intros (tok & [<- | []] & Hin). right. by apply In_rev.
    + intros [[] | Hin]. exists (String.rev cur). split; [by left | by apply In_rev].
  - destruct (Ascii.eqb_spec a sep) as [-> | Hne].
    + split.
      * intros (tok & [<- | Htok] & Hin); [right; by apply In_rev|].
        destruct (proj1 (IH EmptyString Hc)) as [H | []]; [eauto|].
        left. by right.
      * intros [[Heq | Hin] | Hin].
        -- congruence.
        -- destruct (proj2 (IH EmptyString Hc)) as (tok & Htok & Hin'); [by left|].
           exists tok. split; [by right | done].
        -- exists (String.rev cur). split; [by left | by apply In_rev].
    + rewrite IH by done. simpl. tauto.
Qed.

Lemma swaraIndex_letter ch i :
  swaraIndex ch = Some i →
  (i < 12)%nat ∧ isSpace ch = false ∧ ch ≠ "-"%char.
Proof.
  destruct ch as [[] [] [] [] [] [] [] []]; cbn; intros [= <-];
    repeat split; (lia || discriminate).
Qed.

Lemma markLetter_fold chs : ∀ present : list Z,
  length (fold_left markLetter chs present) = length present ∧
  (binaryPattern present → binaryPattern (fold_left markLetter chs present)) ∧
  (∀ i, (i < length present)%nat →
     fold_left markLetter chs present !! i = Some 1 ↔
     present !! i = Some 1 ∨ ∃ ch, In ch chs ∧ swaraIndex ch = Some i).
Proof.
  induction chs as [|ch chs IH]; intros present; cbn [fold_left].
  - split; [done|]. split; [done|]. intros i _. split; [by left|].
    intros [H | (ch & [] & _)]. done.
  - destruct (IH (markLetter present ch)) as (Hlen & Hbin & Hmark).
    assert (length (markLetter present ch) = length present) as Hlen1.
    { unfold markLetter. destruct (swaraIndex ch); [apply length_insert | done]. }
    split; [by rewrite Hlen|]. split.
    + intros Hb. apply Hbin. unfold markLetter. destruct (swaraIndex ch); [|done].
      unfold binaryPattern in *. apply Forall_insert; [done | by right].
    + intros i Hi. rewrite Hmark by (by rewrite Hlen1).
      assert (markLetter present ch !! i = Some 1 ↔
              present !! i = Some 1 ∨ swaraIndex ch = Some i) as ->.
      { unfold markLetter. destruct (swaraIndex ch) as [j|] eqn:Hj.
        - destruct (decide (j = i)) as [-> | Hne].
          + rewrite list_lookup_insert_eq by done. tauto.
          + rewrite list_lookup_insert_ne by done.
            split; [by left | intros [H | [= H]]; done].
        - split; [by left | intros [H | [= H]]; done]. }
      split.
      * intros [[H | H] | (c & Hc & Hidx)].
        -- by left.
        -- right. exists ch. split; [by left | done].
        -- right. exists c. split; [by right | done].
      * intros [H | (c & [<- | Hc] & Hidx)].
        -- left. by left.
        -- left. by right.
        -- right. by exists c.
Qed.

Lemma toPattern_flat s :
  toPattern s =
  fold_left markLetter
    (flat_map (λ tok, list_ascii_of_string (trim tok)) (splitOn "-" s EmptyString))
    (replicate 12 0).
Proof.
  unfold toPattern. generalize (replicate 12 0).
  induction (splitOn "-" s EmptyString) as [|tok toks IH]; intros present; [done|].
  cbn [fold_left flat_map]. rewrite fold_left_app. apply IH.
Qed.


(** X15. What [toPattern] marks: the pattern read from a token string has
    twelve cells, each 0 or 1, and cell [i] is 1 exactly when some
    character of the string is a letter of the swara table that maps to
    [i]; hyphens, blanks and all other characters leave no mark, and
    where or how often a letter occurs is irrelevant. *)
Theorem toPattern_marks_letters (s : string) :
  length (toPattern s) = 12%nat ∧
  binaryPattern (toPattern s) ∧
  (∀ i : nat,
     toPattern s !! i = Some 1 ↔
     ∃ ch, In ch (list_ascii_of_string s) ∧ swaraIndex ch = Some i).
Proof.
  rewrite toPattern_flat.
  destruct (markLetter_fold
              (flat_map (λ tok, list_ascii_of_string (trim tok))
                 (splitOn "-" s EmptyString)) (replicate 12 0))
    as (Hlen & Hbin & Hmark).
  split; [by rewrite Hlen, length_replicate|]. split.
  { apply Hbin. unfold binaryPattern. apply Forall_replicate. by left. }
  assert (∀ ch i, swaraIndex ch = Some i →
            In ch (flat_map (λ tok, list_ascii_of_string (trim tok))
                     (splitOn "-" s EmptyString)) ↔
            In ch (list_ascii_of_string s)) as Hchars.
  { intros ch i Hidx. apply swaraIndex_letter in Hidx as (_ & Hsp & Hhy).
    pose proof (In_splitOn "-" ch s EmptyString Hhy) as Hsplit.
    rewrite in_flat_map. split.
    - intros (tok & Htok & Hin). apply (In_trim ch tok Hsp) in Hin.
      destruct (proj1 Hsplit) as [H | []]; [eauto | done].
    - intros Hin. destruct (proj2 Hsplit (or_introl Hin)) as (tok & Htok & Hin').
      exists tok. split; [done | by apply (In_trim ch tok Hsp)]. }
  intros i. destruct (decide (i < 12)%nat) as [Hi | Hi].
  - rewrite Hmark by (by rewrite length_replicate).
    rewrite lookup_replicate. split.
    + intros [[? _] | (ch & Hch & Hidx)]; [done|].
      exists ch. split; [|done]. by apply (Hchars ch i Hidx).
    + intros (ch & Hch & Hidx). right. exists ch. split; [|done].
      by apply (Hchars ch i Hidx).
  - split.
    + intros Hone. apply lookup_lt_Some in Hone.
      rewrite Hlen, length_replicate in Hone. lia.
    + intros (ch & _ & Hidx). apply swaraIndex_letter in Hidx as (? & _). lia.
Qed.




(** ** The CSV file and the cache *)

Lemma parse_fold lines : ∀ out,
  fold_left (λ out line, match parseLine line with
                         | Some r => out ++ [r]
                         | None => out
                         end) lines out
  = out ++ omap parseLine lines.
Proof.
  induction lines as [|line lines IH]; intros out; cbn [fold_left omap list_omap].
  - by rewrite app_nil_r.
  - rewrite IH. destruct (parseLine line); [by rewrite <- app_assoc | done].
Qed.

Lemma parseLine_wellFormed line r : parseLine line = Some r → wellFormed r.
Proof.
  unfold parseLine. destruct (splitOn "," line EmptyString) as [|n [|a [|v rest]]];
    try done. apply parseRow_wellFormed.
Qed.

Lemma parse_wellFormed csvText : Forall wellFormed (parseAarohAvrohCSV csvText).
Proof.
  unfold parseAarohAvrohCSV. rewrite parse_fold, app_nil_l.
  apply List.Forall_forall. intros r Hr.
  apply list_elem_of_In, list_elem_of_omap in Hr as (line & _ & Hline).
  by apply parseLine_wellFormed in Hline.
Qed.

(** X17. The CSV parser: the ragas are the accepted lines among the
    non-blank lines after the first, in the order of the file; the first
    non-blank line (the header) is never read as a raga; there are at most
    as many ragas as non-blank lines after the header, so an empty file
    or a header alone gives no raga; a line with fewer than three
    comma-separated fields is skipped; and every raga has twelve-cell
    patterns. *)
Theorem csv_parser_laws (csvText : string) :
  parseAarohAvrohCSV csvText = omap parseLine (drop 1 (csvLines csvText)) ∧
  (length (parseAarohAvrohCSV csvText) ≤ length (csvLines csvText) - 1)%nat ∧
  Forall wellFormed (parseAarohAvrohCSV csvText) ∧
  (∀ line, length (splitOn "," line EmptyString) < 3 → parseLine line = None)%nat ∧
  parseAarohAvrohCSV "" = [] ∧
  parseAarohAvrohCSV "Raga,Aaroh,Avroh" = [].
Proof.
  assert (parseAarohAvrohCSV csvText = omap parseLine (drop 1 (csvLines csvText)))
    as Heq by (unfold parseAarohAvrohCSV; by rewrite parse_fold).
  split; [done|]. rewrite Heq. split; [|split; [|split; [|split]]].
  - rewrite <- length_drop. generalize (drop 1 (csvLines csvText)).
    induction l as [|line l IH]; cbn [omap list_omap length]; [lia|].
    destruct (parseLine line); cbn [length]; lia.
  - apply List.Forall_forall. intros r Hr.
    apply list_elem_of_In, list_elem_of_omap in Hr as (line & _ & Hline).
    by apply parseLine_wellFormed in Hline.
  - intros line Hlen. unfold parseLine.
    destruct (splitOn "," line EmptyString) as [|n [|a [|v rest]]]; try done.
    simpl in Hlen. lia.
  - vm_compute. reflexivity.
  - vm_compute. reflexivity.
Qed.

Lemma csv_parser_laws_witness : parseLine "Demo,S-G" = None.
Proof.
  apply (proj1 (proj2 (proj2 (proj2 (csv_parser_laws ""))))). vm_compute. lia.
Defined.

(** X18. The raga cache is filled once: whatever [getRagas] returns is
    what the cache holds afterwards, and every later call returns the same
    list and leaves the cache as it is, whatever the file then contains or
    whether it can still be read; a first call that cannot read the file
    caches the empty list, so the file is not read again. *)
Theorem getRagas_loads_once (ragaCache : option (list Raga)) (file : option string) :
  snd (getRagas ragaCache file) = Some (fst (getRagas ragaCache file)) ∧
  (∀ file', getRagas (snd (getRagas ragaCache file)) file' =
            (fst (getRagas ragaCache file), snd (getRagas ragaCache file))) ∧
  (∀ file', fst (getRagas (snd (getRagas None None)) file') = []) ∧
  (∀ text, fst (getRagas None (Some text)) = parseAarohAvrohCSV text) ∧
  (ragaCache = None → Forall wellFormed (fst (getRagas ragaCache file))).
Proof.
  split; [|split; [|split; [|split]]].
  - by destruct ragaCache.
  - intros file'. by destruct ragaCache.
  - done.
  - done.
  - intros ->. cbn [getRagas fst]. destruct file as [text|]; [|constructor].
    apply parse_wellFormed.
Qed.

Lemma getRagas_loads_once_witness :
  Forall wellFormed (fst (getRagas None (Some "Raga,Aaroh,Avroh
Demo,S-G,G-S"))).
Proof.
  apply (proj2 (proj2 (proj2 (proj2 (getRagas_loads_once None
           (Some "Raga,Aaroh,Avroh
Demo,S-G,G-S")))))). reflexivity.
Defined.

(** ** The search as a stable filter *)

Lemma includeStage_sublist mode pat S l : sublist (includeStage mode pat S l) l.
Proof.
  unfold includeStage. destruct (bool_decide _); [|done].
  destruct (String.eqb mode "exact"); apply sublist_List_filter.
Qed.

Lemma excludeStage_sublist pat E l : sublist (excludeStage pat E l) l.
Proof.
  unfold excludeStage. destruct (bool_decide _); [|done]. apply sublist_List_filter.
Qed.

Lemma pitchStage_sublist q l : sublist (pitchStage q l) l.
Proof.
  unfold pitchStage. destruct (separate q).
  - etransitivity; [apply excludeStage_sublist|].
    etransitivity; [apply includeStage_sublist|].
    etransitivity; [apply excludeStage_sublist|]. apply includeStage_sublist.
  - etransitivity; [apply excludeStage_sublist|]. apply includeStage_sublist.
Qed.

Lemma searchInput_sublist ragas q : sublist (searchInput ragas q) (map enrich ragas).
Proof.
  unfold searchInput. transitivity (nameStage (search q) (map enrich ragas)).
  - unfold scaleStage. destruct (scaleType q); (reflexivity || apply sublist_List_filter).
  - unfold nameStage. destruct (negb _); [apply sublist_List_filter | reflexivity].
Qed.

Lemma sublist_In {A} (l k : list A) x : sublist l k → In x l → In x k.
Proof.
  induction 1 as [|y l k _ IH|y l k _ IH]; [done | |].
  - intros [-> | Hin]; [by left | right; by apply IH].
  - intros Hin. right. by apply IH.
Qed.

Lemma includeStage_empty mode pat l : includeStage mode pat (toSet []) l = l.
Proof. reflexivity. Qed.

(** X19. The search is a stable filter: whatever the query, the result is
    a subsequence of the enriched raga list, so ragas keep the order of
    the repository and none is added or repeated; every result carries
    the swara count of its combined pattern and the jati labels of its
    two directions; and a query with no name, no scale type and no
    pitch-class sets returns every raga, in either search mode and either
    direction mode. *)
Theorem ragaSearch_stable (ragas : list Raga) (q : SearchQuery) :
  sublist (ragaSearch ragas q) (map enrich ragas) ∧
  sublist (map raga (ragaSearch ragas q)) ragas ∧
  (∀ r, In r (ragaSearch ragas q) →
     noteCount r = countSwaras (notePattern (raga r)) ∧
     aarohJati r = getJati (countSwaras (aarohPattern (raga r))) ∧
     avrohJati r = getJati (countSwaras (avrohPattern (raga r)))) ∧
  (∀ mode sep,
     ragaSearch ragas (mkSearchQuery "" ScaleAny mode sep [] [] [] [] [] []) =
     map enrich ragas).
Proof.
  assert (sublist (ragaSearch ragas q) (map enrich ragas)) as Hsub.
  { etransitivity; [apply pitchStage_sublist | apply (searchInput_sublist ragas q)]. }
  split; [done|]. split; [|split].
  - apply (sublist_map raga) in Hsub. rewrite map_map in Hsub.
    by rewrite map_id in Hsub.
  - intros r Hr. apply (sublist_In _ _ _ Hsub), in_map_iff in Hr as (r0 & <- & _).
    done.
  - intros mode sep. unfold ragaSearch, pitchStage. cbn [search scaleType separate
      searchMode selectedNotes excludedNotes selectedAarohNotes excludedAarohNotes
      selectedAvrohNotes excludedAvrohNotes nameStage scaleStage].
    by destruct sep.
Qed.

Lemma ragaSearch_stable_witness :
  noteCount (enrich demoRaga) = countSwaras (notePattern (raga (enrich demoRaga))).
Proof.
  apply (proj1 (proj2 (proj2 (ragaSearch_stable [demoRaga] (exactQuery [4] []))))
           (enrich demoRaga)).
  vm_compute. left. reflexivity.
Defined.

(** ** Contains mode, and exact mode inside it *)

Lemma includeStage_contains mode pat (S : gset Z) (l : list EnrichedRaga) :
  mode ≠ "exact" →
  includeStage mode pat S l =
  filter (λ r, S ≠ ∅ →
               set_Forall (λ i, js_index (pat (raga r)) i = Some 1) (S ∪ {[0]})) l.
Proof.
  intros Hmode. unfold includeStage.
  destruct (decide (0 < size S)%nat) as [Hpos | Hzero].
  - rewrite bool_decide_eq_true_2 by done.
    apply String.eqb_neq in Hmode. rewrite Hmode.
    apply size_pos_nonempty in Hpos.
    apply List_filter_stdpp. intros r _. rewrite forallb_forall. split.
    + intros H _ i Hi.
      assert (In i (elements (S ∪ {[0]}))) as Hin
        by (by apply list_elem_of_In, elem_of_elements).
      apply H in Hin. by apply bool_decide_eq_true_1 in Hin.
    + intros H i Hi. apply bool_decide_eq_true_2, (H Hpos).
      by apply elem_of_elements, list_elem_of_In.
  - rewrite bool_decide_eq_false_2 by done.
    symmetry. apply filter_all_stdpp.
    intros r _ Hne. by apply size_pos_nonempty in Hne.
Qed.

Lemma pitchStage_contains q l :
  searchMode q ≠ "exact" → pitchStage q l = filter (containsKeepsAll q) l.
Proof.
  intros Hmode. unfold pitchStage.
  destruct (separate q) eqn:Hsep.
  - rewrite !excludeStage_spec, !includeStage_contains by done.
    rewrite !list_filter_filter. apply filter_ext_stdpp.
    intros r _. unfold containsKeepsAll, containsKeeps. rewrite Hsep. tauto.
  - rewrite excludeStage_spec, includeStage_contains by done.
    rewrite list_filter_filter. apply filter_ext_stdpp.
    intros r _. unfold containsKeepsAll, containsKeeps. rewrite Hsep. tauto.
Qed.

Lemma pitchStage_exact q l :
  searchMode q = "exact" →
  (∀ r, In r l → wellFormed (raga r)) →
  pitchStage q l = filter (exactKeepsAll q) l.
Proof.
  intros Hmode Hlen. unfold pitchStage. rewrite Hmode.
  destruct (separate q) eqn:Hsep.
  - rewrite !excludeStage_spec.
    rewrite (includeStage_exact aarohPattern _ l)
      by (intros r Hr; by destruct (Hlen r Hr) as (_ & ? & _)).
    rewrite includeStage_exact
      by (intros r Hr; do 2 apply filter_In_stdpp in Hr;
          by destruct (Hlen r Hr) as (_ & _ & ?)).
    rewrite !list_filter_filter. apply filter_ext_stdpp.
    intros r _. unfold exactKeepsAll, exactKeeps. rewrite Hsep. tauto.
  - rewrite excludeStage_spec.
    rewrite includeStage_exact
      by (intros r Hr; by destruct (Hlen r Hr) as (? & _ & _)).
    rewrite list_filter_filter. apply filter_ext_stdpp.
    intros r _. unfold exactKeepsAll, exactKeeps. rewrite Hsep. tauto.
Qed.

(** X20. Contains mode: with any search mode other than ['exact'] (the
    default ['contains'], or an unknown word) the search keeps, of the
    ragas that passed the name and scale filters, exactly those whose
    relevant pattern has a 1 at every pitch class of the inclusion set and
    at the tonic when the inclusion set is not empty, and a 0 at every
    excluded pitch class; in separate mode the ascending and the
    descending pattern are each tested against their own sets.  With an
    empty inclusion set the tonic is not required. *)
Theorem contains_search (ragas : list Raga) (q : SearchQuery) :
  searchMode q ≠ "exact" →
  ragaSearch ragas q = filter (containsKeepsAll q) (searchInput ragas q) ∧
  ragaSearch ragas q = ragaSearch ragas (withMode q "contains").
Proof.
  intros Hmode.
  assert (ragaSearch ragas q = pitchStage q (searchInput ragas q)) as -> by done.
  assert (ragaSearch ragas (withMode q "contains") =
          pitchStage (withMode q "contains") (searchInput ragas q)) as -> by done.
  rewrite !pitchStage_contains by done. split; [done|].
  apply filter_ext_stdpp. intros r _. by unfold containsKeepsAll.
Qed.

Lemma contains_search_witness :
  ragaSearch [demoRaga] (withMode (exactQuery [4] [7]) "fuzzy") =
  ragaSearch [demoRaga] (withMode (withMode (exactQuery [4] [7]) "fuzzy") "contains").
Proof.
  apply (proj2 (contains_search [demoRaga] (withMode (exactQuery [4] [7]) "fuzzy")
                  ltac:(discriminate))).
Defined.

Lemma exactKeeps_containsKeeps pat sel exc r :
  exactKeeps pat sel exc r → containsKeeps pat sel exc r.
Proof.
  unfold exactKeeps, containsKeeps. intros [Hinc Hexc]. split; [|done].
  intros Hne i Hi. specialize (Hinc Hne).
  unfold patternIsSet in Hinc. rewrite List.Forall_forall in Hinc.
  assert (In i roots12) as Hin.
  { apply roots12_In. apply elem_of_union in Hi as [Hi | Hi].
    - by apply toSet_range in Hi.
    - apply elem_of_singleton in Hi. lia. }
  rewrite (Hinc i Hin). by rewrite decide_True.
Qed.

Lemma sublist_filter_impl_stdpp {A} (P Q : A → Prop) `{∀ x, Decision (P x)}
    `{∀ x, Decision (Q x)} (l : list A) :
  (∀ x, P x → Q x) → sublist (filter P l) (filter Q l).
Proof.
  intros Hpq. induction l as [|x l IH]; [constructor|].
  rewrite !filter_cons. destruct (decide (P x)) as [Hp | Hn].
  - rewrite decide_True by (by apply Hpq). by constructor.
  - destruct (decide (Q x)); [by constructor | done].
Qed.

(** X21. Exact mode is stricter than contains mode: for ragas with
    twelve-cell patterns, every raga that a query returns in exact mode is
    returned, in the same order, by the same query in contains mode (or
    under any other mode word). *)
Theorem exact_within_contains (ragas : list Raga) (q : SearchQuery) (mode : string) :
  Forall wellFormed ragas →
  mode ≠ "exact" →
  sublist (ragaSearch ragas (withMode q "exact")) (ragaSearch ragas (withMode q mode)).
Proof.
  intros Hwf Hmode. rewrite List.Forall_forall in Hwf.
  assert (∀ m, ragaSearch ragas (withMode q m) =
               pitchStage (withMode q m) (searchInput ragas q)) as Hrs by done.
  rewrite !Hrs, pitchStage_exact, pitchStage_contains; try done.
  - apply sublist_filter_impl_stdpp. intros r.
    unfold exactKeepsAll, containsKeepsAll. cbn [withMode separate selectedNotes
      excludedNotes selectedAarohNotes excludedAarohNotes selectedAvrohNotes
      excludedAvrohNotes].
    destruct (separate q).
    + intros [Ha Hv]. split; by apply exactKeeps_containsKeeps.
    + apply exactKeeps_containsKeeps.
  - intros r Hr. by apply Hwf, searchInput_In with q.
Qed.

Lemma exact_within_contains_witness :
  sublist (ragaSearch [demoRaga] (withMode (exactQuery [4] []) "exact"))
          (ragaSearch [demoRaga] (withMode (exactQuery [4] []) "contains")).
Proof.
  apply (exact_within_contains [demoRaga] (exactQuery [4] []) "contains").
  - constructor; [exact (parseRow_wellFormed _ _ _ _ parseRow_demo) | constructor].
  - discriminate.
Defined.

(** ** Sets of pitch classes and the scale filter *)

Lemma roots12_NoDup : NoDup roots12.
Proof.
  assert (bool_decide (NoDup roots12) = true) as H by (vm_compute; reflexivity).
  by apply bool_decide_eq_true_1 in H.
Qed.

(** X22. The sets read from the query: a pitch class belongs to the set
    exactly when it is listed and lies in 0..11, so values out of range
    are dropped; the set has at most twelve members; and two lists that
    list the same pitch classes of 0..11 give the same set, whatever the
    order, the repetitions and the values out of range. *)
Theorem toSet_laws (ns : list Z) :
  (∀ i, i ∈ toSet ns ↔ In i ns ∧ 0 ≤ i ≤ 11) ∧
  (size (toSet ns) ≤ 12)%nat ∧
  (∀ ns', (∀ i, 0 ≤ i ≤ 11 → (In i ns ↔ In i ns')) → toSet ns = toSet ns').
Proof.
  split; [|split].
  - apply toSet_In.
  - assert (toSet ns ⊆ list_to_set roots12) as Hsub.
    { intros i Hi. apply elem_of_list_to_set, list_elem_of_In, roots12_In.
      by apply toSet_range in Hi. }
    apply subseteq_size in Hsub.
    rewrite size_list_to_set in Hsub by apply roots12_NoDup. simpl in Hsub. lia.
  - intros ns' Hsame. apply set_eq. intros i. rewrite !toSet_In.
    split; intros [Hin Hr]; (split; [by apply (Hsame i Hr) | done]).
Qed.

Lemma toSet_laws_witness : toSet [4; 4; 12; -1; 0] = toSet [0; 4].
Proof.
  apply (proj2 (proj2 (toSet_laws [4; 4; 12; -1; 0])) [0; 4]).
  intros i Hi. simpl. split; intros H; lia.
Defined.

Lemma pitchStage_nil q : pitchStage q [] = [].
Proof.
  pose proof (pitchStage_sublist q []) as H. by apply sublist_nil_r in H.
Qed.

Lemma searchInput_enriched ragas q r :
  In r (searchInput ragas q) → r = enrich (raga r).
Proof.
  intros Hr. apply (sublist_In _ _ _ (searchInput_sublist ragas q)) in Hr.
  by apply in_map_iff in Hr as (r0 & <- & _).
Qed.

Lemma countSwaras_range pattern : 0 ≤ countSwaras pattern ≤ 7.
Proof.
  rewrite countSwaras_fold.
  pose proof (swaraStep_fold_bounds pattern swaraGroups 0) as H.
  simpl length in H. lia.
Qed.

(** X23. The scale-type filter: with a numeric scale type every raga
    returned has exactly that swara count over its combined pattern, and a
    number below 0 or above 7 returns nothing, whatever the other
    criteria, because a swara count is never outside 0..7. *)
Theorem scale_filter_range (ragas : list Raga) (q : SearchQuery) (target : Z) :
  scaleType q = ScaleTarget target →
  (∀ r, In r (ragaSearch ragas q) →
        countSwaras (notePattern (raga r)) = target) ∧
  (target < 0 ∨ 7 < target → ragaSearch ragas q = []).
Proof.
  intros Hscale.
  assert (∀ r, In r (ragaSearch ragas q) →
               countSwaras (notePattern (raga r)) = target) as Hcount.
  { intros r Hr.
    apply (sublist_In _ _ _ (pitchStage_sublist q (searchInput ragas q))) in Hr.
    pose proof (searchInput_enriched ragas q r Hr) as Henr.
    unfold searchInput in Hr. rewrite Hscale in Hr. cbn [scaleStage] in Hr.
    apply filter_In in Hr as [_ Heq]. apply Z.eqb_eq in Heq.
    rewrite Henr in Heq. exact Heq. }
  split; [done|]. intros Hout. apply list_nil_no_In. intros r Hr.
  apply Hcount in Hr. pose proof (countSwaras_range (notePattern (raga r))). lia.
Qed.

Lemma scale_filter_range_witness :
  ragaSearch [demoRaga]
    (mkSearchQuery "" (ScaleTarget 8) "contains" false [] [] [] [] [] []) = [].
Proof.
  apply (proj2 (scale_filter_range [demoRaga]
                  (mkSearchQuery "" (ScaleTarget 8) "contains" false [] [] [] [] [] [])
                  8 eq_refl)).
  right. lia.
Defined.

(** ** Lookup by name and the chords route *)

Lemma lowerAscii_idem c : lowerAscii (lowerAscii c) = lowerAscii c.
Proof. destruct c as [[] [] [] [] [] [] [] []]; reflexivity. Qed.

Lemma toLowerCase_idem s : toLowerCase (toLowerCase s) = toLowerCase s.
Proof.
  induction s as [|c s IH]; [done|]. cbn [toLowerCase].
  by rewrite lowerAscii_idem, IH.
Qed.

(** X24. Lookup of a raga by name, for names and requests written in
    ASCII (where the lower-casing of the runtime folds the letters A to Z
    and nothing else): the raga found is the first of the list whose
    lower-cased name equals the lower-cased request; nothing is found
    exactly when no raga has such a name; and the request may be given in
    any letter case: looking up the lower-cased request finds the same
    raga. *)
Theorem findRaga_laws (ragas : list Raga) (requested : string) :
  Forall (λ x, isAscii (name x) = true) ragas →
  isAscii requested = true →
  (∀ r, findRaga ragas requested = Some r →
     ∃ before after,
       ragas = before ++ r :: after ∧
       toLowerCase (name r) = toLowerCase requested ∧
       ∀ x, In x before → toLowerCase (name x) ≠ toLowerCase requested) ∧
  (findRaga ragas requested = None ↔
   ∀ x, In x ragas → toLowerCase (name x) ≠ toLowerCase requested) ∧
  findRaga ragas (toLowerCase requested) = findRaga ragas requested.
Proof.
  intros _ _. split; [|split].
  - unfold findRaga. induction ragas as [|x ragas IH]; intros r; [done|].
    cbn [find]. destruct (String.eqb_spec (toLowerCase (name x)) (toLowerCase requested))
      as [Heq | Hne].
    + intros [= <-]. exists [], ragas. by repeat split.
    + intros Hr. destruct (IH r Hr) as (before & after & -> & Hname & Hbefore).
      exists (x :: before), after. repeat split; [done|].
      intros y [<- | Hy]; [done | by apply Hbefore].
  - unfold findRaga. split.
    + intros Hnone x Hx. apply (find_none _ _ Hnone) in Hx.
      by apply String.eqb_neq in Hx.
    + intros Hall. induction ragas as [|x ragas IH]; [done|]. cbn [find].
      destruct (String.eqb_spec (toLowerCase (name x)) (toLowerCase requested))
        as [Heq | Hne].
      * destruct (Hall x); [by left | done].
      * apply IH. intros y Hy. apply Hall. by right.
  - unfold findRaga. by rewrite toLowerCase_idem.
Qed.

Lemma findRaga_laws_witness :
  ∃ before after,
    [triadRaga; demoRaga] = before ++ demoRaga :: after ∧
    toLowerCase (name demoRaga) = toLowerCase "DEMO" ∧
    ∀ x, In x before → toLowerCase (name x) ≠ toLowerCase "DEMO".
Proof.
  apply (proj1 (findRaga_laws [triadRaga; demoRaga] "DEMO"
                  ltac:(repeat constructor) ltac:(reflexivity)) demoRaga).
  vm_compute. reflexivity.
Defined.

Lemma attach_keys chords tonicIndex :
  map (λ c, (root c, notes c, type c)) (attachWesternNames chords tonicIndex) =
  map (λ c, (root c, notes c, type c)) chords.
Proof. destruct tonicIndex; [|done]. cbn [attachWesternNames]. by rewrite map_map. Qed.

Lemma emitted_sound pattern chordId extend m :
  In m (availableChordsForPattern pattern chordId extend) →
  0 ≤ root m ≤ 11 ∧ present pattern (root m) ∧
  ∀ n, In n (notes m) → present pattern n.
Proof.
  intros Hm. apply available_In in Hm as (ct & r & _ & Hr & Hacc & ->).
  apply roots12_In in Hr. apply accepts_present in Hacc as [Hroot Hnotes].
  by cbn [chordAt root notes].
Qed.

(** X25. The chords route: an unknown raga is answered 404; a
    [selectedNote] or a [tonic] that [parseInt] could not read is ignored,
    as if the parameter were missing; and for a known raga the chords
    returned are, in the matcher's order, some of the chords that the
    matcher emits for the pattern that [part] selects (['aaroh'],
    ['avroh'], anything else the combined pattern): each has its root in
    0..11, and its root and all its notes present in that pattern,
    whatever the filter and the tonic. *)
Theorem chordsRoute_laws (part chordType extend filterMode : string)
    (selectedNote tonic : option ParsedInt) :
  chordsRoute None part chordType extend selectedNote filterMode tonic =
    Error 404 "Not found" ∧
  (∀ r, chordsRoute r part chordType extend (Some PNaN) filterMode tonic =
        chordsRoute r part chordType extend None filterMode tonic) ∧
  (∀ r, chordsRoute r part chordType extend selectedNote filterMode (Some PNaN) =
        chordsRoute r part chordType extend selectedNote filterMode None) ∧
  (∀ r chords,
     chordsRoute (Some r) part chordType extend selectedNote filterMode tonic =
       Ok chords →
     sublist (map (λ c, (root c, notes c, type c)) chords)
             (map (λ c, (root c, notes c, type c))
                  (availableChordsForPattern (selectPattern r part) chordType
                     (String.eqb (toLowerCase extend) "true"))) ∧
     ∀ c, In c chords →
          0 ≤ root c ≤ 11 ∧ present (selectPattern r part) (root c) ∧
          ∀ n, In n (notes c) → present (selectPattern r part) n).
Proof.
  split; [done|]. split; [done|]. split; [done|].
  intros r chords Hok. cbn [chordsRoute] in Hok. fold (selectPattern r part) in Hok.
  injection Hok as <-.
  set (emitted := availableChordsForPattern (selectPattern r part) chordType
                    (String.eqb (toLowerCase extend) "true")).
  set (filtered := match selectedNote with
                   | Some (PInt sel) => filterChordsByNote emitted (Some sel) (Some filterMode)
                   | _ => emitted
                   end).
  assert (sublist filtered emitted) as Hfilt.
  { unfold filtered. destruct selectedNote as [[|sel]|]; try done.
    unfold filterChordsByNote. destruct (bool_decide _); apply sublist_List_filter. }
  set (named := match tonic with
                | Some (PInt tnx) => attachWesternNames filtered (Some (NInt tnx))
                | _ => filtered
                end).
  assert (map (λ c, (root c, notes c, type c)) named =
          map (λ c, (root c, notes c, type c)) filtered) as Hnamed.
  { unfold named. destruct tonic as [[|tnx]|]; try done. apply attach_keys. }
  assert (sublist (map (λ c, (root c, notes c, type c)) named)
            (map (λ c, (root c, notes c, type c)) emitted)) as Hsub
    by (rewrite Hnamed; by apply sublist_map).
  split; [exact Hsub|]. intros c Hc.
  assert (In (root c, notes c, type c)
             (map (λ c, (root c, notes c, type c)) emitted)) as Hin.
  { apply (sublist_In _ _ _ Hsub), in_map_iff. by exists c. }
  apply in_map_iff in Hin as (m & [= <- <- _] & Hm).
  by apply (emitted_sound (selectPattern r part) chordType
              (String.eqb (toLowerCase extend) "true") m).
Qed.

Lemma chordsRoute_laws_witness :
  0 ≤ root (chordAt false majorType 0) ≤ 11 ∧
  present (selectPattern triadRaga "aaroh") (root (chordAt false majorType 0)).
Proof.
  destruct (proj2 (proj2 (proj2 (proj2 (chordsRoute_laws "aaroh" "major" "false" "root"
                                         (Some (PInt 0)) None))) triadRaga
                   [chordAt false majorType 0] ltac:(vm_compute; reflexivity))
              (chordAt false majorType 0) ltac:(by left)) as (Hroot & Hpresent & _).
  split; [exact Hroot | exact Hpresent].
Defined.

(** ** The catalog and the names of emitted chords *)

Lemma catalog_ids_NoDup : NoDup (map ct_id chordTypes).
Proof.
  assert (bool_decide (NoDup (map ct_id chordTypes)) = true) as H
    by (vm_compute; reflexivity).
  by apply bool_decide_eq_true_1 in H.
Qed.

Lemma filter_unique_key {A} (key : A → string) (k : string) (l : list A) :
  NoDup (map key l) →
  (length (List.filter (λ x, String.eqb (key x) k) l) ≤ 1)%nat.
Proof.
  induction l as [|x l IH]; intros Hnd; cbn [List.filter map length]; [lia|].
  cbn [map] in Hnd. apply NoDup_cons in Hnd as [Hx Hnd].
  destruct (String.eqb_spec (key x) k) as [Heq | Hne]; [|by apply IH].
  assert (List.filter (λ y, String.eqb (key y) k) l = []) as ->.
  { apply list_nil_no_In. intros y Hy. apply filter_In in Hy as [Hy Hk].
    apply String.eqb_eq in Hk. apply Hx, list_elem_of_In, in_map_iff.
    exists y. split; [congruence | done]. }
  simpl. lia.
Qed.

(** X26. Selection of templates: the chord ids ['all'] and the empty
    string select the thirteen templates of the catalog in catalog order;
    any other chord id selects at most one template, and a selected
    template has that id, because the ids of the catalog are pairwise
    different. *)
Theorem selectTypes_laws (chordId : string) :
  selectTypes "all" = chordTypes ∧
  selectTypes "" = chordTypes ∧
  length chordTypes = 13%nat ∧
  NoDup (map ct_id chordTypes) ∧
  (chordId ≠ "all" → chordId ≠ "" →
   (length (selectTypes chordId) ≤ 1)%nat ∧
   ∀ ct, In ct (selectTypes chordId) → In ct chordTypes ∧ ct_id ct = chordId).
Proof.
  split; [done|]. split; [done|]. split; [done|].
  split; [apply catalog_ids_NoDup|].
  intros Hall Hemp. unfold selectTypes.
  apply String.eqb_neq in Hall, Hemp. rewrite Hall, Hemp. cbn [orb]. split.
  - apply filter_unique_key, catalog_ids_NoDup.
  - intros ct Hct. apply filter_In in Hct as [Hct Hid].
    by apply String.eqb_eq in Hid.
Qed.

Lemma selectTypes_laws_witness : (length (selectTypes "dim7") ≤ 1)%nat.
Proof.
  apply (proj2 (proj2 (proj2 (proj2 (selectTypes_laws "dim7"))))); discriminate.
Defined.

Lemma catalog_quality_listed ct :
  In ct chordTypes → qualityTable !! ct_id ct ≠ None.
Proof.
  intros Hct.
  assert (forallb (λ ct, bool_decide (qualityTable !! ct_id ct ≠ None)) chordTypes
          = true) as Hall by (vm_compute; reflexivity).
  rewrite forallb_forall in Hall. specialize (Hall ct Hct).
  by apply bool_decide_eq_true_1 in Hall.
Qed.

(** X27. Naming what the matcher emits: for every pattern, filter and
    extension flag and every integer tonic from 0 to
    [Number.MAX_SAFE_INTEGER - 11] (so that every sum of a pitch class and
    the tonic is computed without rounding), each emitted chord receives
    the name made of the flat-spelling note at [(root + tonic) mod 12], the
    suffix listed for its template in the quality table, and the notes at
    [(n + tonic) mod 12] joined by [" - "]; the display-name fallback is
    never used and no part of the name is undefined. *)
Theorem emitted_chords_named (pattern : list Z) (chordId : string) (extend : bool)
    (tonic : Z) :
  0 ≤ tonic ≤ MAX_SAFE_INTEGER - 11 →
  attachWesternNames (availableChordsForPattern pattern chordId extend)
    (Some (NInt tonic)) =
    map (λ c, withWesternName c (westernNameOf tonic c))
        (availableChordsForPattern pattern chordId extend) ∧
  (∀ m, In m (availableChordsForPattern pattern chordId extend) →
        ∃ suffix, qualityTable !! ct_id (type m) = Some suffix ∧
                  quality (type m) = suffix).
Proof.
  intros Ht. split.
  - cbn [attachWesternNames]. apply map_ext_in. intros c Hc.
    pose proof (emitted_sound _ _ _ _ Hc) as (Hroot & _ & _).
    assert (∀ n, In n (notes c) → 0 ≤ n ≤ 11) as Hnotes.
    { intros n Hn. apply available_In in Hc as (ct & r & Hct & Hr & _ & ->).
      apply selectTypes_In in Hct as [Hct _]. apply roots12_In in Hr.
      cbn [chordAt notes] in Hn. rewrite catalog_notes_mod in Hn by (done || lia).
      apply in_map_iff in Hn as (i & <- & _).
      pose proof (Z.mod_pos_bound (r + i) 12 ltac:(lia)). lia. }
    unfold withWesternName, westernNameOf. f_equal. f_equal.
    rewrite western_lookup by lia. cbn [js_str default].
    rewrite quality_table. do 3 f_equal.
    rewrite <- js_join_concat, map_map. f_equal.
    apply map_ext_in. intros n Hn. apply western_lookup.
    specialize (Hnotes n Hn). lia.
  - intros m Hm. apply available_In in Hm as (ct & r & Hct & _ & _ & ->).
    apply selectTypes_In in Hct as [Hct _]. cbn [chordAt type].
    pose proof (catalog_quality_listed ct Hct) as Hlisted.
    destruct (qualityTable !! ct_id ct) as [suffix|] eqn:Hq; [|done].
    exists suffix. split; [done|]. rewrite quality_table. unfold qualitySuffix.
    by rewrite Hq.
Qed.

Lemma emitted_chords_named_witness :
  attachWesternNames (availableChordsForPattern pentatonic "major" false)
    (Some (NInt 2)) =
  map (λ c, withWesternName c (westernNameOf 2 c))
      (availableChordsForPattern pentatonic "major" false).
Proof.
  apply (proj1 (emitted_chords_named pentatonic "major" false 2
                  ltac:(vm_compute; split; discriminate))).
Defined.

Lemma js_index_negative {A} (arr : list A) n : n < 0 → js_index arr n = None.
Proof. intros Hn. unfold js_index. by rewrite decide_False by lia. Qed.

(** X28. Tonics that leave the root without a name.  [%] keeps the sign
    of its left operand, so when [root + tonic] is a negative integer down
    to [- Number.MAX_SAFE_INTEGER] (hence computed without rounding) and
    not a multiple of 12, the table is read at a negative index; and when
    the tonic is an infinity or [NaN], the index is [NaN].  In all these
    cases nothing is found and the name attached to the chord starts with
    the word [undefined]. *)
Theorem negative_tonic_undefined (c : Chord) :
  (∀ tonic,
     (- MAX_SAFE_INTEGER) ≤ root c + tonic < 0 →
     (root c + tonic) `mod` 12 ≠ 0 →
     ∃ named rest,
       attachWesternNames [c] (Some (NInt tonic)) = [named] ∧
       westernName named = Some ("undefined" +:+ rest)) ∧
  (∀ negative, ∃ named rest,
     attachWesternNames [c] (Some (NInf negative)) = [named] ∧
     westernName named = Some ("undefined" +:+ rest)) ∧
  (∃ named rest,
     attachWesternNames [c] (Some NNaN) = [named] ∧
     westernName named = Some ("undefined" +:+ rest)).
Proof.
  split; [|split].
  - intros tonic Hneg Hmod. cbn [attachWesternNames map js_add].
    eexists. eexists. split; [reflexivity|]. cbn [westernName].
    rewrite roundDouble_safe by lia. cbn [js_rem_number js_index_number].
    rewrite js_index_negative; [reflexivity|].
    unfold js_rem. revert Hmod. Z.to_euclidean_division_equations. lia.
  - intros negative. cbn [attachWesternNames map js_add].
    eexists. eexists. split; reflexivity.
  - cbn [attachWesternNames map js_add]. eexists. eexists. split; reflexivity.
Qed.

Lemma negative_tonic_undefined_witness :
  ∃ named rest,
    attachWesternNames [chordAt false majorType 0] (Some (NInt (-1))) = [named] ∧
    westernName named = Some ("undefined" +:+ rest).
Proof.
  apply (proj1 (negative_tonic_undefined (chordAt false majorType 0)) (-1)).
  - vm_compute. split; [discriminate | reflexivity].
  - vm_compute. discriminate.
Defined.

Lemma toPattern_marks_letters_witness : toPattern "S-G" !! 4%nat = Some 1.
Proof.
  apply (proj2 (proj2 (toPattern_marks_letters "S-G")) 4%nat).
  exists "G"%char. split; [simpl; auto | reflexivity].
Defined.
